(** * The WhatsApp bridge of dev-politica-bot: session, send queue,
      control server and inbound relay

    A shallow embedding of [whatsapp-service/messageQueue.js],
    [client.js], [handlers.js] and [webhookServer.js], and of the settings
    read in [index.js].

    JavaScript runs these classes on one cooperative event loop.  An
    [async] function runs without interruption up to its next [await];
    the embedding therefore takes one such uninterrupted segment as one
    transition, and represents a suspended invocation of [process()] by a
    continuation ([Cont]) kept in the world until the awaited promise
    settles. *)

From Stdlib Require Import ZArith Lia.
From stdpp Require Import base list strings gmap.

(** ** JavaScript values that the code tests for truthiness *)

(** An optional string field of a request object: [None] stands for
    [undefined] or [null], [Some s] for the string [s]. *)
Definition truthy (v : option string) : bool :=
  match v with
  | Some (String _ _) => true
  | _ => false
  end.

(** An optional integer field; [0] is falsy. *)
Definition truthyZ (v : option Z) : bool :=
  match v with
  | Some 0%Z => false
  | Some _ => true
  | None => false
  end.

(** [v || d] on an optional integer. *)
Definition orZ (v : option Z) (d : Z) : Z :=
  match v with
  | Some z => if truthyZ v then z else d
  | None => d
  end.

(** [v != null] *)
Definition not_null {A : Type} (v : option A) : bool :=
  match v with
  | Some _ => true
  | None => false
  end.

(** Outcome of a call that may throw. *)
Inductive result (A : Type) : Type :=
| Ok (a : A)
| Throw (e : string).
Arguments Ok {A} a.
Arguments Throw {A} e.

(** ** client.js: the session wrapper [WhatsAppClient] *)

(** What the platform library stores in [client.info] once the session is
    usable (the account the session belongs to). *)
Definition ClientInfo := string.

(** The platform client object created by [new Client(...)].  Its only
    field read by this repository is [info]. *)
Record Handle := { info : option ClientInfo }.

Record WhatsAppClient := {
  wa_client : option Handle;   (* this.client *)
  isReady : bool               (* this.isReady *)
}.

(** [new WhatsAppClient(config)] *)
Definition new_WhatsAppClient : WhatsAppClient :=
  {| wa_client := None; isReady := false |}.

(** What can happen to the session: the two methods of the wrapper and the
    events the platform client emits.  The callbacks are registered on the
    client object that [initialize()] creates, so an event reaches the
    wrapper only while that object exists.  The platform library sets
    [client.info] just before it emits [ready]; it is an external
    dependency, and that is the one fact about it used here. *)
Inductive SessionEvent :=
| Initialize
| Qr
| Authenticated
| Ready (ci : ClientInfo)
| Disconnected
| ClientError
| Logout.

Definition session_step (e : SessionEvent) (s : WhatsAppClient) : WhatsAppClient :=
  match e, wa_client s with
  | Initialize, None => {| wa_client := Some {| info := None |}; isReady := isReady s |}
  | Initialize, Some _ => s
  | Ready ci, Some _ => {| wa_client := Some {| info := Some ci |}; isReady := true |}
  | Disconnected, Some h => {| wa_client := Some h; isReady := false |}
  | Logout, Some _ => {| wa_client := None; isReady := false |}
  | _, _ => s
  end.

Definition not_initialized : string :=
  "Cliente não inicializado. Chame initialize() primeiro.".

(** [getClient()] *)
Definition getClient (s : WhatsAppClient) : result Handle :=
  match wa_client s with
  | None => Throw not_initialized
  | Some h => Ok h
  end.

(** ** messageQueue.js: [MessageQueue] *)

(** The argument of [enqueue]. *)
Record Message := {
  m_to : option string;
  m_content : option string;
  m_metadata : option (list (string * string));
  m_maxAttempts : option Z
}.

(** The value of [Math.random()], identified by a natural number. *)
Definition Rand := N.

(** The template string [`${Date.now()}-${Math.random()}`].  The clock
    reading is a run of digits, so the first dash separates the two parts and
    the string determines the pair; the pair stands for the string. *)
Record Id := { id_time : Z; id_random : Rand }.

Record Item := {
  item_id : Id;
  to : string;
  content : string;
  metadata : list (string * string);
  timestamp : Z;
  attempts : Z;
  maxAttempts : Z
}.

(** Queue items are JavaScript objects: the array [queue] and the local
    variable [messageItem] of a running [process()] hold references to
    them, and [messageItem.attempts++] is seen through both.  Items live in
    a store and are named by their index in it. *)
Abbreviation ref := nat (only parsing).

(** Where an invocation of [process()] is suspended. *)
Inductive Cont :=
| AwaitSend (r : ref)          (* line 52, [messageItem] is [r] *)
| AwaitDelay (deadline : Z).   (* line 58 or 68, timer due at [deadline] *)

(** What the queue does to the outside. *)
Inductive Action :=
| CallSend (r : ref) (chat : string) (body : string)  (* sendMessage(...) *)
| Sent (r : ref)                                      (* onMessageSent *)
| Failed (r : ref)                                    (* onMessageFailed *)
| Delay (ms : Z).                                     (* _delay(ms) *)

Record World := {
  queue : list ref;            (* this.queue *)
  isProcessing : bool;         (* this.isProcessing *)
  rateLimitDelay : Z;          (* this.rateLimitDelay *)
  client : bool;               (* this.client: the session wrapper, or null *)
  session : WhatsAppClient;    (* the session wrapper itself *)
  heap : list Item;            (* the item objects *)
  tasks : list Cont;           (* suspended invocations of process() *)
  now : Z;                     (* the clock, in milliseconds *)
  log : list (Z * Action)      (* what was done and when, newest first *)
}.

Definition set_queue (q : list ref) (w : World) : World :=
  {| queue := q; isProcessing := isProcessing w; rateLimitDelay := rateLimitDelay w;
     client := client w; session := session w; heap := heap w; tasks := tasks w;
     now := now w; log := log w |}.

Definition set_isProcessing (b : bool) (w : World) : World :=
  {| queue := queue w; isProcessing := b; rateLimitDelay := rateLimitDelay w;
     client := client w; session := session w; heap := heap w; tasks := tasks w;
     now := now w; log := log w |}.

Definition set_client (b : bool) (w : World) : World :=
  {| queue := queue w; isProcessing := isProcessing w; rateLimitDelay := rateLimitDelay w;
     client := b; session := session w; heap := heap w; tasks := tasks w;
     now := now w; log := log w |}.

Definition set_session (s : WhatsAppClient) (w : World) : World :=
  {| queue := queue w; isProcessing := isProcessing w; rateLimitDelay := rateLimitDelay w;
     client := client w; session := s; heap := heap w; tasks := tasks w;
     now := now w; log := log w |}.

Definition set_heap (h : list Item) (w : World) : World :=
  {| queue := queue w; isProcessing := isProcessing w; rateLimitDelay := rateLimitDelay w;
     client := client w; session := session w; heap := h; tasks := tasks w;
     now := now w; log := log w |}.

Definition set_tasks (t : list Cont) (w : World) : World :=
  {| queue := queue w; isProcessing := isProcessing w; rateLimitDelay := rateLimitDelay w;
     client := client w; session := session w; heap := heap w; tasks := t;
     now := now w; log := log w |}.

Definition set_now (t : Z) (w : World) : World :=
  {| queue := queue w; isProcessing := isProcessing w; rateLimitDelay := rateLimitDelay w;
     client := client w; session := session w; heap := heap w; tasks := tasks w;
     now := t; log := log w |}.

Definition emit (a : Action) (w : World) : World :=
  {| queue := queue w; isProcessing := isProcessing w; rateLimitDelay := rateLimitDelay w;
     client := client w; session := session w; heap := heap w; tasks := tasks w;
     now := now w; log := (now w, a) :: log w |}.

(** [new MessageQueue(config)] with [config.rateLimitDelay = delay], next to
    a fresh session wrapper. *)
Definition new_World (delay : option Z) : World :=
  {| queue := []; isProcessing := false; rateLimitDelay := orZ delay 8000;
     client := false; session := new_WhatsAppClient; heap := []; tasks := [];
     now := 0; log := [] |}.

(** An invocation of [process()] either suspends at an [await] or runs off
    the end of the function. *)
Definition spawn (c : option Cont) (w : World) : World :=
  match c with
  | Some c => set_tasks (tasks w ++ [c]) w
  | None => w
  end.

(** [messageItem.attempts++] *)
Definition bump (it : Item) : Item :=
  {| item_id := item_id it; to := to it; content := content it;
     metadata := metadata it; timestamp := timestamp it;
     attempts := attempts it + 1; maxAttempts := maxAttempts it |}.

(** [this.client.getClient()] as evaluated on line 52: a [TypeError] when
    the queue has no session wrapper, the wrapper's own error when it has no
    client object. *)
Definition queue_getClient (w : World) : result Handle :=
  if client w then getClient (session w)
  else Throw "TypeError: Cannot read properties of null".

(** The [catch] block, lines 59 to 70, with [messageItem] being [r].  The
    result says whether the invocation suspends on the back-off delay
    ([Some]) or goes back to the loop test ([None]). *)
Definition catch_block (r : ref) (w : World) : World * option Cont :=
  match heap w !! r with
  | None => (w, None)
  | Some it =>
      let it' := bump it in
      let w1 := set_heap (<[r := it']> (heap w)) w in
      if (maxAttempts it' <=? attempts it')%Z then
        let w2 := emit (Failed r) w1 in
        (set_queue (tail (queue w2)) w2, None)
      else
        let ms := (rateLimitDelay w1 * attempts it')%Z in
        (emit (Delay ms) w1, Some (AwaitDelay (now w1 + ms)))
  end.

(** The [while] loop from its test, lines 47 to 73, run until the next
    [await] or until the loop ends.  [q] is [this.queue]: every pass that
    does not suspend shifts it, so the recursion is on [q]. *)
Fixpoint loop (q : list ref) (w : World) : World * option Cont :=
  match q with
  | [] => (set_isProcessing false w, None)
  | r :: q' =>
      match heap w !! r with
      | None => (w, None)
      | Some it =>
          match queue_getClient w with
          | Ok _ =>
              (emit (CallSend r (to it +:+ "@c.us") (content it)) w, Some (AwaitSend r))
          | Throw _ =>
              match catch_block r w with
              | (w1, Some c) => (w1, Some c)
              | (w1, None) => loop q' w1
              end
          end
      end
  end.

(** [process()], lines 40 to 74. *)
Definition process (w : World) : World :=
  if isProcessing w || (length (queue w) =? 0) || negb (client w && isReady (session w))
  then w
  else
    let '(w1, c) := loop (queue w) (set_isProcessing true w) in
    spawn c w1.

Definition missing_field : string := "Mensagem deve ter 'to' e 'content'".

(** [enqueue(message)], lines 15 to 38; [rnd] is what [Math.random()]
    returns and the clock of the world is what [Date.now()] returns. *)
Definition new_item (m : Message) (rnd : Rand) (t : Z) : Item :=
  {| item_id := {| id_time := t; id_random := rnd |};
     to := default "" (m_to m);
     content := default "" (m_content m);
     metadata := default [] (m_metadata m);
     timestamp := t;
     attempts := 0;
     maxAttempts := orZ (m_maxAttempts m) 3 |}.

(** [this.queue.push(messageItem)] for a newly created object. *)
Definition push (it : Item) (w : World) : World :=
  set_queue (queue w ++ [length (heap w)]) (set_heap (heap w ++ [it]) w).

Definition enqueue (m : Message) (rnd : Rand) (w : World) : World * result Id :=
  if negb (truthy (m_to m)) || negb (truthy (m_content m)) then
    (w, Throw missing_field)
  else
    let it := new_item m rnd (now w) in
    let w1 := push it w in
    let w2 := if isProcessing w1 then w1 else process w1 in
    (w2, Ok (item_id it)).

(** The continuation of line 52 once [sendMessage] has settled. *)
Definition resume_send (r : ref) (ok : bool) (w : World) : World * option Cont :=
  if ok then
    let w1 := emit (Sent r) w in
    let w2 := set_queue (tail (queue w1)) w1 in
    (emit (Delay (rateLimitDelay w2)) w2,
     Some (AwaitDelay (now w2 + rateLimitDelay w2)))
  else
    match catch_block r w with
    | (w1, Some c) => (w1, Some c)
    | (w1, None) => loop (queue w1) w1
    end.

(** The continuation of lines 58 and 68 once the timer has fired. *)
Definition resume_delay (w : World) : World * option Cont :=
  loop (queue w) w.

(** ** The event loop *)

Inductive Event :=
| Enqueue (m : Message) (rnd : Rand)   (* a caller invokes enqueue *)
| Process                              (* a caller invokes process *)
| Clear                                (* a caller invokes clear *)
| SetClient (b : bool)                 (* setClient(wrapper) or setClient(null) *)
| Settle (k : nat) (ok : bool)         (* the send awaited by task k settles *)
| Fire (k : nat)                       (* the timer awaited by task k fires *)
| Tick (dt : Z)                        (* time passes *)
| Session (e : SessionEvent).          (* something happens to the session *)

Definition step (e : Event) (w : World) : World :=
  match e with
  | Enqueue m rnd => fst (enqueue m rnd w)
  | Process => process w
  | Clear => set_queue [] w
  | SetClient b => set_client b w
  | Settle k ok =>
      match tasks w !! k with
      | Some (AwaitSend r) =>
          let '(w1, c) := resume_send r ok (set_tasks (delete k (tasks w)) w) in
          spawn c w1
      | _ => w
      end
  | Fire k =>
      match tasks w !! k with
      | Some (AwaitDelay d) =>
          if (d <=? now w)%Z then
            let '(w1, c) := resume_delay (set_tasks (delete k (tasks w)) w) in
            spawn c w1
          else w
      | _ => w
      end
  | Tick dt => if (0 <=? dt)%Z then set_now (now w + dt) w else w
  | Session e => set_session (session_step e (session w)) w
  end.

Definition run (es : list Event) (w : World) : World :=
  foldl (fun w e => step e w) w es.

(** The history of a world, oldest first. *)
Definition history (w : World) : list (Z * Action) := reverse (log w).

(** ** [getStatus()] and [clear()] *)

(** One entry of the [queue] array that [getStatus()] returns. *)
Record Summary := {
  s_id : Id;
  s_to : string;
  s_attempts : Z;
  s_timestamp : Z
}.

(** What [getStatus()] returns. *)
Record Status := {
  queueLength : nat;
  st_isProcessing : bool;
  st_queue : list Summary
}.

Definition summary (msg : Item) : Summary :=
  {| s_id := item_id msg; s_to := to msg;
     s_attempts := attempts msg; s_timestamp := timestamp msg |}.

(** [getStatus()], lines 80 to 91.  The array [this.queue] holds the item
    objects themselves; here it holds their names, which are looked up in the
    store. *)
Definition getStatus (w : World) : Status :=
  {| queueLength := length (queue w);
     st_isProcessing := isProcessing w;
     st_queue := omap (fun r => summary <$> heap w !! r) (queue w) |}.

(** ** webhookServer.js: the control server *)

Module WebhookServer.

(** [MessageMedia] *)
Record Media := {
  mimetype : string;
  data : string;
  filename : option string
}.

(** The second argument of [sendMessage]. *)
Inductive Content :=
| Text (s : string)
| Attachment (m : Media).

(** What the handlers ask of the platform, in the order they ask it. *)
Inductive Call :=
| Fetch (url : string) (unsafeMime : bool)                      (* MessageMedia.fromUrl *)
| Send (chatId : string) (c : Content) (caption : option string).  (* client.sendMessage *)

(** How the platform answers: the fetched attachment or an error, and the
    [id.id] of the message sent or an error. *)
Record Platform := {
  fromUrl : string -> bool -> result Media;
  sendMessage : string -> Content -> option string -> result string
}.

(** [req.body] of [POST /send-message] *)
Record Body := {
  chatId : option string;
  message : option string;
  mediaUrl : option string;
  req_mimetype : option string
}.

(** The JSON documents the server answers with. *)
Inductive Json :=
| Health (status : string) (isReady : bool)      (* { status, isReady } *)
| Success (messageId : string)                   (* { success: true, messageId } *)
| Failure (error : string).                      (* { success: false, error } *)

Record Response := { status : Z; json : Json }.

(** [GET /health]: [whatsappClient] is the platform client object handed to
    [startWebhookServer]. *)
Definition get_health (whatsappClient : Handle) : Response * list Call :=
  ({| status := 200;
      json := Health "ok" (not_null (info whatsappClient)) |},
   []).

Definition required_params : string :=
  "Parâmetros 'chatId' e 'message' são obrigatórios.".

(** [media.mimetype = mimetype] *)
Definition with_mimetype (mt : string) (m : Media) : Media :=
  {| mimetype := mt; data := data m; filename := filename m |}.

(** Lines 22 to 29: the attachment to send, if any. *)
Definition fetch_media (P : Platform) (req : Body) : result (option Media) * list Call :=
  if truthy (mediaUrl req) then
    let url := default "" (mediaUrl req) in
    let unsafeMime := not_null (req_mimetype req) in
    match fromUrl P url unsafeMime with
    | Throw e => (Throw e, [Fetch url unsafeMime])
    | Ok m =>
        (Ok (Some (if truthy (req_mimetype req)
                   then with_mimetype (default "" (req_mimetype req)) m
                   else m)),
         [Fetch url unsafeMime])
    end
  else (Ok None, []).

(** [POST /send-message], lines 14 to 39. *)
Definition post_send_message (P : Platform) (req : Body) : Response * list Call :=
  if negb (truthy (chatId req)) || negb (truthy (message req)) then
    ({| status := 400; json := Failure required_params |}, [])
  else
    let chat := default "" (chatId req) in
    let text := default "" (message req) in
    match fetch_media P req with
    | (Throw e, calls) => ({| status := 500; json := Failure e |}, calls)
    | (Ok media, calls) =>
        let c := match media with Some m => Attachment m | None => Text text end in
        let cap := match media with Some _ => Some text | None => None end in
        match sendMessage P chat c cap with
        | Ok mid => ({| status := 200; json := Success mid |}, calls ++ [Send chat c cap])
        | Throw e => ({| status := 500; json := Failure e |}, calls ++ [Send chat c cap])
        end
    end.


End WebhookServer.

(** ** handlers.js: the inbound relay *)

Module MessageHandlers.

Inductive Level := Info | Warn | Error.

(** The fields of the platform's message, contact and chat objects that the
    relay reads. *)
Record Msg := {
  msg_type : string;
  msg_id : string;
  msg_from : string;
  msg_to : string;
  msg_author : option string;
  msg_body : string;
  msg_timestamp : Z;
  hasMedia : bool;
  msg_mimetype : option string;
  msg_filename : option string
}.

Record Contact := {
  serialized : string;
  name : option string;
  pushname : option string;
  shortName : option string;
  isMe : bool;
  isUser : bool;
  contact_isGroup : bool
}.

Record Chat := { chat_isGroup : bool }.

Record Sender := {
  sender_id : string;
  sender_name : option string;
  sender_shortName : option string;
  sender_isMe : bool;
  sender_isUser : bool;
  sender_isGroup : bool
}.

Record Payload := {
  messageId : string;
  p_from : string;
  p_to : string;
  author : option string;
  body : string;
  type : string;
  timestamp : Z;
  isGroup : bool;
  sender : Sender;
  media : option (option string * option string)   (* { mimetype, filename } *)
}.

(** What the relay does to the outside. *)
Inductive Effect :=
| Console (l : Level) (what : string)
| Post (url : string) (p : Payload) (timeout : Z).   (* axios.post *)

(** A computation that logs, posts and may throw. *)
Definition M (A : Type) : Type := list Effect * result A.

Definition ret {A} (a : A) : M A := ([], Ok a).
Definition throw {A} (e : string) : M A := ([], Throw e).
Definition bind {A B} (m : M A) (k : A -> M B) : M B :=
  match m with
  | (fx, Ok a) => let '(fx', b) := k a in (fx ++ fx', b)
  | (fx, Throw e) => (fx, Throw e)
  end.
Definition try_catch {A} (m : M A) (h : string -> M A) : M A :=
  match m with
  | (fx, Ok a) => (fx, Ok a)
  | (fx, Throw e) => let '(fx', b) := h e in (fx ++ fx', b)
  end.
Definition console (l : Level) (what : string) : M unit := ([Console l what], Ok tt).
Definition lift {A} (r : result A) : M A := ([], r).

Notation "x <- m ;; k" := (bind m (fun x => k))
  (at level 100, m at next level, right associativity).
Notation "m ;;; k" := (bind m (fun _ => k))
  (at level 100, right associativity).

(** How the outside answers the relay. *)
Record Env := {
  getContact : Msg -> result Contact;
  getChat : Msg -> result Chat;
  axios_post : string -> Payload -> result unit
}.

(** The handlers object: its only field. *)
Record t := { orchestratorUrl : option string }.

(** [new MessageHandlers(config)] *)
Definition constructor (url : option string) : t * list Effect :=
  ({| orchestratorUrl := url |},
   if truthy url then [] else [Console Warn "URL do orquestrador não definida"]).

(** [_forwardToOrchestrator(payload)], lines 242 to 254. *)
Definition forwardToOrchestrator (E : Env) (h : t) (p : Payload) : M unit :=
  if negb (truthy (orchestratorUrl h)) then ret tt
  else
    let url := default "" (orchestratorUrl h) in
    try_catch
      (([Post url p 10000], axios_post E url p) ;;;
       console Info "Encaminhado")
      (fun e => console Error "Webhook").

(** [contact.name || contact.pushname] *)
Definition display_name (c : Contact) : option string :=
  if truthy (name c) then name c else pushname c.

Definition make_payload (msg : Msg) (contact : Contact) (chat : Chat) : Payload :=
  {| messageId := msg_id msg;
     p_from := msg_from msg;
     p_to := msg_to msg;
     author := msg_author msg;
     body := msg_body msg;
     type := msg_type msg;
     timestamp := msg_timestamp msg;
     isGroup := chat_isGroup chat;
     sender := {| sender_id := serialized contact;
                  sender_name := display_name contact;
                  sender_shortName := shortName contact;
                  sender_isMe := isMe contact;
                  sender_isUser := isUser contact;
                  sender_isGroup := contact_isGroup contact |};
     media := if hasMedia msg then Some (msg_mimetype msg, msg_filename msg) else None |}.

(** The [message] listener registered by [setup], lines 185 to 231. *)
Definition on_message (E : Env) (h : t) (msg : Msg) : M unit :=
  if String.eqb (msg_type msg) "e2e_notification" || String.eqb (msg_type msg) "call_log"
  then ret tt
  else
    try_catch
      (contact <- lift (getContact E msg) ;;
       chat <- lift (getChat E msg) ;;
       let payload := make_payload msg contact chat in
       console Info "Mensagem Recebida" ;;;
       console Info "Mensagem" ;;;
       console Info "payload" ;;;
       forwardToOrchestrator E h payload)
      (fun e => console Error "Falha ao processar e encaminhar mensagem").

Definition posts (fx : list Effect) : list Effect :=
  List.filter (fun e => match e with Post _ _ _ => true | _ => false end) fx.

Definition errors (fx : list Effect) : list Effect :=
  List.filter (fun e => match e with Console Error _ => true | _ => false end) fx.

End MessageHandlers.

(** ** client.js and index.js: configuration *)

Module Config.

(** The JavaScript values that occur in the configuration objects. *)
Inductive Value :=
| Undefined
| Bool (b : bool)
| Str (s : string)
| Num (n : Z).

Definition truthyV (v : Value) : bool :=
  match v with
  | Undefined => false
  | Bool b => b
  | Str s => negb (String.eqb s "")
  | Num n => negb (n =? 0)%Z
  end.

(** [a || b] *)
Definition or_else (a b : Value) : Value := if truthyV a then a else b.

(** An object used as a record of named settings. *)
Abbreviation Obj := (gmap string Value) (only parsing).

(** [o.k], which is [undefined] when the object has no such property. *)
Definition get (o : Obj) (k : string) : Value := default Undefined (o !! k).

(** The constructor of [WhatsAppClient], lines 101 to 109, builds
    [{ headless: true, sessionName: config.sessionName || "default", ...config }]:
    the properties spread last replace those written before them. *)
Definition client_config (config : Obj) : Obj :=
  config ∪
  <["headless" := Bool true]>
    (<["sessionName" := or_else (get config "sessionName") (Str "default")]> ∅).

(** What [initialize()] hands to [new Client(...)], lines 114 to 122. *)
Record ClientOptions := {
  clientId : Value;
  headless : Value;
  args : list string
}.

Definition client_options (this_config : Obj) : ClientOptions :=
  {| clientId := get this_config "sessionName";
     headless := get this_config "headless";
     args := ["--no-sandbox"; "--disable-setuid-sandbox"] |}.

(** [process.env]: every variable that is set is a string. *)
Abbreviation Env := (gmap string string) (only parsing).

Definition env (e : Env) (k : string) : Value :=
  match e !! k with
  | Some s => Str s
  | None => Undefined
  end.

(** index.js, lines 8 to 10. *)
Definition WEBHOOK_PORT (e : Env) : Value := or_else (env e "WEBHOOK_PORT") (Num 3001).

Definition WHATSAPP_SESSION (e : Env) : Value :=
  or_else (env e "WHATSAPP_SESSION") (Str "default").

Definition ORCHESTRATOR_URL (e : Env) : Value := env e "ORCHESTRATOR_URL".

(** The argument of [new WhatsAppClient(...)] in [main], lines 15 to 17. *)
Definition main_config (e : Env) : Obj := {[ "sessionName" := WHATSAPP_SESSION e ]}.

End Config.

(** * Vocabulary of the statements *)

(** ** Worlds to start from *)

(** A fresh queue handed to a session wrapper on which [initialize()] has
    been called. *)
Definition attached (d : option Z) : World :=
  run [SetClient true; Session Initialize] (new_World d).

(** The same once the platform has emitted [ready]. *)
Definition ready (d : option Z) (ci : ClientInfo) : World :=
  run [SetClient true; Session Initialize; Session (Ready ci)] (new_World d).

(** [enqueue] accepts the message. *)
Definition valid (m : Message) : bool := truthy (m_to m) && truthy (m_content m).

(** ** Shape of reachable worlds *)

(** The item can go through one more attempt without passing its bound. *)
Definition retryable (it : Item) : Prop :=
  (attempts it = 0 \/ 0 < attempts it < maxAttempts it)%Z.

Definition limit (it : Item) : Z := Z.max 1 (maxAttempts it).

Definition bounded (it : Item) : Prop := (0 <= attempts it <= limit it)%Z.

Record Sound (w : World) : Prop := {
  sound_alloc : forall r, r ∈ queue w -> r < length (heap w);
  sound_nodup : NoDup (queue w);
  sound_queue : forall r it, r ∈ queue w -> heap w !! r = Some it -> retryable it;
  sound_heap : forall r it, heap w !! r = Some it -> bounded it
}.

(** The flag [isProcessing] counts the suspended invocations of [process]. *)
Definition one_task (w : World) : Prop :=
  (tasks w = [] /\ isProcessing w = false) \/
  (exists c, tasks w = [c] /\ isProcessing w = true).

Definition await_ok (w : World) : Prop :=
  forall r, AwaitSend r ∈ tasks w ->
    (exists it, heap w !! r = Some it /\ retryable it) /\
    (r ∈ queue w -> head (queue w) = Some r).

Record Inv (w : World) : Prop := {
  inv_sound : Sound w;
  inv_tasks : one_task w;
  inv_await : await_ok w
}.

(** What an invocation of [process] leaves behind when it suspends or ends. *)
Definition landed (w : World) (c : option Cont) : Prop :=
  match c with
  | None => isProcessing w = false
  | Some (AwaitSend r) =>
      isProcessing w = true /\ head (queue w) = Some r /\
      exists it, heap w !! r = Some it /\ retryable it
  | Some (AwaitDelay _) => isProcessing w = true
  end.

(** The session wrapper never claims readiness without a client object. *)
Definition session_ok (s : WhatsAppClient) : Prop :=
  isReady s = true -> is_Some (wa_client s).

(** What the loop and the [catch] block leave alone. *)
Definition same_frame (w w' : World) : Prop :=
  now w' = now w /\ rateLimitDelay w' = rateLimitDelay w /\
  session w' = session w /\ client w' = client w.

(** The instants at which sends completed, in the log's order. *)
Fixpoint sent_times (l : list (Z * Action)) : list Z :=
  match l with
  | [] => []
  | (t, Sent _) :: l => t :: sent_times l
  | _ :: l => sent_times l
  end.

(** The loop and the [catch] block, besides, record no completed send. *)
Definition quiet (w w' : World) : Prop :=
  sent_times (log w') = sent_times (log w) /\ same_frame w w'.

(** ** Counting what happened to an item *)

Definition is_send (r : nat) (a : Action) : bool :=
  match a with CallSend r' _ _ => bool_decide (r' = r) | _ => false end.

Definition is_sent (r : nat) (a : Action) : bool :=
  match a with Sent r' => bool_decide (r' = r) | _ => false end.

Definition is_failed (r : nat) (a : Action) : bool :=
  match a with Failed r' => bool_decide (r' = r) | _ => false end.

Fixpoint count (p : Action -> bool) (l : list (Z * Action)) : Z :=
  match l with
  | [] => 0
  | (_, a) :: l => (if p a then 1 else 0) + count p l
  end.

(** 1 while the suspended invocation awaits the send of [r]. *)
Definition inflight (ts : list Cont) (r : nat) : Z :=
  match ts with
  | [AwaitSend r'] => if bool_decide (r' = r) then 1 else 0
  | _ => 0
  end.

Definition accounted (w : World) (r : nat) (it : Item) : Prop :=
  (r ∈ queue w ->
     count (is_sent r) (log w) = 0 /\ count (is_failed r) (log w) = 0 /\
     count (is_send r) (log w) = attempts it + inflight (tasks w) r)%Z /\
  (r ∉ queue w ->
     (count (is_sent r) (log w) = 1 /\ count (is_failed r) (log w) = 0)%Z \/
     (count (is_sent r) (log w) = 0 /\ count (is_failed r) (log w) = 1 /\
      count (is_send r) (log w) = limit it /\ attempts it = limit it)%Z).

Record Core (w : World) : Prop := {
  core_sound : Sound w;
  core_client : client w = true;
  core_handle : is_Some (wa_client (session w));
  core_fresh : forall r, length (heap w) <= r ->
     count (is_send r) (log w) = 0%Z /\ count (is_sent r) (log w) = 0%Z /\
     count (is_failed r) (log w) = 0%Z;
  core_acc : forall r it, heap w !! r = Some it -> accounted w r it
}.

(** The queue has a session wrapper with a client object, and was not emptied
    behind the back of its worker. *)
Record Attached (w : World) : Prop := {
  att_core : Core w;
  att_inv : Inv w;
  att_head : forall r, tasks w = [AwaitSend r] -> head (queue w) = Some r
}.

(** Events that keep it so. *)
Definition normal (e : Event) : Prop :=
  match e with
  | Clear | SetClient false | Session Logout => False
  | _ => True
  end.

(** Events of a run in which, moreover, no send fails. *)
Definition smooth (e : Event) : Prop :=
  match e with
  | Clear | SetClient false | Session Logout | Settle _ false => False
  | _ => True
  end.


(** [messageItem.attempts++] on the stored object. *)
Definition bumped (r : nat) (it : Item) (w : World) : World :=
  set_heap (<[r:=bump it]> (heap w)) w.

(** ** What [enqueue] fixed for good *)

(** The item as [enqueue] created it. *)
Definition static (it : Item) : Item :=
  {| item_id := item_id it; to := to it; content := content it;
     metadata := metadata it; timestamp := timestamp it;
     attempts := 0; maxAttempts := maxAttempts it |}.

(** The items an event adds to the store. *)
Definition created (e : Event) (w : World) : list Item :=
  match e with
  | Enqueue m rnd => if valid m then [new_item m rnd (now w)] else []
  | _ => []
  end.

(** Destination and content as the caller gave them. *)
Definition request (m : Message) : string * string :=
  (default "" (m_to m), default "" (m_content m)).

(** The accepted requests of a run, in the order of the calls. *)
Fixpoint accepted (es : list Event) : list (string * string) :=
  match es with
  | [] => []
  | Enqueue m _ :: es => if valid m then request m :: accepted es else accepted es
  | _ :: es => accepted es
  end.

(** The arguments [sendMessage] gets for a request. *)
Definition addressed (p : string * string) : string * string :=
  (p.1 +:+ "@c.us", p.2).

Definition wire (it : Item) : string * string := addressed (to it, content it).

(** ** Order and spacing of the sends *)

(** The arguments of the calls of [sendMessage] in a log, in the log's order. *)
Fixpoint dispatched (l : list (Z * Action)) : list (string * string) :=
  match l with
  | [] => []
  | (_, CallSend _ chat body) :: l => (chat, body) :: dispatched l
  | _ :: l => dispatched l
  end.






(** 1 while a send is in flight. *)
Definition busy (ts : list Cont) : nat :=
  match ts with
  | [AwaitSend _] => 1
  | _ => 0
  end.

(** The queue holds the items not yet removed, in the order of their creation,
    and the calls made so far went through the store in that order. *)
Definition Fifo (w : World) : Prop :=
  exists k, k <= length (heap w) /\
    queue w = seq k (length (heap w) - k) /\
    reverse (dispatched (log w)) = take (k + busy (tasks w)) (wire <$> heap w).

(** ** Schedules *)

(** Every send of the head item fails; after each failure but the last the
    back-off delay elapses and its timer fires.  [a] is the attempt count
    after the next failure, [n] the number of retries still to come. *)
Fixpoint retry_schedule (rate a : Z) (n : nat) : list Event :=
  match n with
  | O => [Settle 0 false]
  | S n =>
      Settle 0 false :: Tick (Z.max 0 (rate * a)) :: Fire 0 ::
      retry_schedule rate (a + 1) n
  end.

(** The awaited send succeeds, the rate-limit delay elapses, its timer fires. *)
Definition pause (rate : Z) : list Event :=
  [Settle 0 true; Tick (Z.max 0 rate); Fire 0].

(** ** The session on its own *)

Definition run_session (es : list SessionEvent) : WhatsAppClient :=
  foldl (fun s e => session_step e s) new_WhatsAppClient es.

(** Whether a client object exists after the events: [initialize()] creates
    one, [logout()] drops it. *)
Definition live (es : list SessionEvent) : bool :=
  foldl (fun b e => match e with Initialize => true | Logout => false | _ => b end)
        false es.

(** Whether the session has reached Ready: the platform has emitted [ready]
    on the client object now held.  The pair is (a client object exists, it
    has emitted [ready]). *)
Definition track (st : bool * bool) (e : SessionEvent) : bool * bool :=
  match e, st with
  | Initialize, (false, _) => (true, false)
  | Ready _, (true, _) => (true, true)
  | Logout, _ => (false, false)
  | _, _ => st
  end.

Definition reached_ready (es : list SessionEvent) : bool :=
  (foldl track (false, false) es).2.

(** ** The queue as a window on the store *)

(** The queue holds the most recently created items, in the order of their
    creation. *)
Definition Window (w : World) : Prop :=
  exists k, k <= length (heap w) /\ queue w = seq k (length (heap w) - k).

(** The queue of [w'] is what is left of the queue of [w] after some shifts,
    and no item was created in between. *)
Definition shifted (w w' : World) : Prop :=
  (exists j, queue w' = drop j (queue w)) /\ length (heap w') = length (heap w).

(** Every item of [h] is still in [h'], at the same place, with the fields
    [enqueue] gave it and at least as many attempts. *)
Definition grown (h h' : list Item) : Prop :=
  forall r it, h !! r = Some it ->
    exists it', h' !! r = Some it' /\ static it' = static it /\
      (attempts it <= attempts it')%Z.

(** Events during which a caller is inside [enqueue] or [process]. *)
Definition requests_drain (e : Event) : bool :=
  match e with
  | Enqueue _ _ | Process => true
  | _ => false
  end.

(** ** The elementary moves of a queue that keeps its client *)

(** What one uninterrupted segment does to queue, items and log is made of
    these: nothing; a call of [sendMessage] for the head item; a new item
    appended; the head item sent and removed; the head item failed and kept
    for a retry; the head item failed for good and removed. *)
Inductive move (v v' : World) : Prop :=
| move_none :
    queue v' = queue v -> heap v' = heap v -> log v' = log v -> move v v'
| move_call r it t :
    head (queue v) = Some r -> heap v !! r = Some it ->
    queue v' = queue v -> heap v' = heap v ->
    log v' = (t, CallSend r (to it +:+ "@c.us") (content it)) :: log v -> move v v'
| move_push it :
    attempts it = 0%Z ->
    queue v' = queue v ++ [length (heap v)] -> heap v' = heap v ++ [it] ->
    log v' = log v -> move v v'
| move_sent r it t ms :
    head (queue v) = Some r -> heap v !! r = Some it ->
    queue v' = tail (queue v) -> heap v' = heap v ->
    log v' = (t, Delay ms) :: (t, Sent r) :: log v -> move v v'
| move_retry r it t ms :
    head (queue v) = Some r -> heap v !! r = Some it ->
    queue v' = queue v -> heap v' = <[r:=bump it]> (heap v) ->
    log v' = (t, Delay ms) :: log v -> move v v'
| move_failed r it t :
    head (queue v) = Some r -> heap v !! r = Some it ->
    queue v' = tail (queue v) -> heap v' = <[r:=bump it]> (heap v) ->
    log v' = (t, Failed r) :: log v -> move v v'.

(** A segment makes at most two of them. *)
Definition moves (w w' : World) : Prop := exists v, move w v /\ move v w'.

(** The log entries that concern item [r]. *)
Definition about (r : nat) (a : Action) : bool :=
  match a with
  | CallSend r' _ _ | Sent r' | Failed r' => bool_decide (r' = r)
  | Delay _ => false
  end.

Definition entries (r : nat) (l : list (Z * Action)) : list (Z * Action) :=
  List.filter (fun e => about r e.2) l.

(** The items a callback was invoked for, in the log's order. *)
Fixpoint outcomes (l : list (Z * Action)) : list nat :=
  match l with
  | [] => []
  | (_, Sent r) :: l => r :: outcomes l
  | (_, Failed r) :: l => r :: outcomes l
  | _ :: l => outcomes l
  end.

(** The items [onMessageSent] was invoked for, in the log's order. *)
Fixpoint delivered (l : list (Z * Action)) : list nat :=
  match l with
  | [] => []
  | (_, Sent r) :: l => r :: delivered l
  | _ :: l => delivered l
  end.

(** The first [k] items created have left the queue, in the order of their
    creation; the others wait, in that order. *)
Definition Ordered (w : World) : Prop :=
  exists k, k <= length (heap w) /\
    queue w = seq k (length (heap w) - k) /\
    reverse (outcomes (log w)) = seq 0 k.

(** Item [r] has left the queue. *)
Definition finished (r : nat) (w : World) : Prop :=
  r < length (heap w) /\ r ∉ queue w.

(** Nothing about item [r] differs between the two worlds. *)
Definition untouched (r : nat) (w w' : World) : Prop :=
  heap w' !! r = heap w !! r /\ entries r (log w') = entries r (log w).

(** ** Delays *)




(** ** Batches *)

(** [enqueue] accepts the message of the pair; the second component is the
    random number drawn for its id. *)
Definition accepts (p : Message * Rand) : Prop := valid p.1 = true.

(** The calls [enqueue(m)] for the messages of a list, in order. *)
Definition enqueue_all (ms : list (Message * Rand)) : list Event :=
  (fun p => Enqueue p.1 p.2) <$> ms.

(** [n] times: the awaited send succeeds, the delay elapses, its timer fires. *)
Fixpoint pauses (n : nat) (rate : Z) : list Event :=
  match n with
  | O => []
  | S n => pause rate ++ pauses n rate
  end.

(** ** The relay *)

(** The message types the relay drops. *)
Definition ignored (msg : MessageHandlers.Msg) : bool :=
  String.eqb (MessageHandlers.msg_type msg) "e2e_notification" ||
  String.eqb (MessageHandlers.msg_type msg) "call_log".

(** ** Sample inputs *)

Definition greeting : Message :=
  {| m_to := Some "5585988123456"; m_content := Some "oi";
     m_metadata := None; m_maxAttempts := None |}.

Definition once (m : Message) (n : Z) : Message :=
  {| m_to := m_to m; m_content := m_content m;
     m_metadata := m_metadata m; m_maxAttempts := Some n |}.

Definition farewell : Message :=
  {| m_to := Some "5585988654321"; m_content := Some "tchau";
     m_metadata := None; m_maxAttempts := None |}.





(** An item queued while the session is not ready yet. *)
Definition waiting : World :=
  run [SetClient true; Session Initialize; Enqueue greeting 1%N] (new_World None).

(** Three failed sends of one item, the back-off delays elapsing in between. *)
Definition three_failures : list Event :=
  [Session (Ready "bot"); Enqueue greeting 1%N;
   Settle 0 false; Tick 8000; Fire 0;
   Settle 0 false; Tick 16000; Fire 0;
   Settle 0 false].


(** A platform on which every fetch and every send succeeds. *)
Definition obliging : WebhookServer.Platform :=
  {| WebhookServer.fromUrl := fun _ _ =>
       Ok {| WebhookServer.mimetype := "application/octet-stream";
             WebhookServer.data := "T2dnUw==";
             WebhookServer.filename := None |};
     WebhookServer.sendMessage := fun _ _ _ => Ok "3EB0C767D1" |}.

Definition audio_request : WebhookServer.Body :=
  {| WebhookServer.chatId := Some "5585988123456@c.us";
     WebhookServer.message := Some "Confira este audio!";
     WebhookServer.mediaUrl := Some "https://example.com/audio.mp3";
     WebhookServer.req_mimetype := Some "audio/mpeg" |}.

(** An outside on which every call of the relay succeeds. *)
Definition calm : MessageHandlers.Env :=
  {| MessageHandlers.getContact := fun _ =>
       Ok {| MessageHandlers.serialized := "5585988123456@c.us";
             MessageHandlers.name := Some "Joao Silva";
             MessageHandlers.pushname := None;
             MessageHandlers.shortName := Some "Joao";
             MessageHandlers.isMe := false;
             MessageHandlers.isUser := true;
             MessageHandlers.contact_isGroup := false |};
     MessageHandlers.getChat := fun _ => Ok {| MessageHandlers.chat_isGroup := false |};
     MessageHandlers.axios_post := fun _ _ => Ok tt |}.

Definition inbound : MessageHandlers.Msg :=
  {| MessageHandlers.msg_type := "chat";
     MessageHandlers.msg_id := "3EB0A1";
     MessageHandlers.msg_from := "5585988123456@c.us";
     MessageHandlers.msg_to := "5585988654321@c.us";
     MessageHandlers.msg_author := None;
     MessageHandlers.msg_body := "Preciso de ajuda";
     MessageHandlers.msg_timestamp := 1700000000;
     MessageHandlers.hasMedia := false;
     MessageHandlers.msg_mimetype := None;
     MessageHandlers.msg_filename := None |}.

(** One message on a ready session, its send in flight. *)
Definition first_send_pending : World :=
  run [Enqueue greeting 1%N] (ready None "bot").

(** The first message is sent; a second one arrives during the pause and its
    first send fails. *)
Definition first_sent : list Event :=
  [Session (Ready "bot"); Enqueue greeting 1%N; Settle 0 true].

Definition second_arrives : list Event :=
  [Enqueue farewell 2%N; Tick 8000; Fire 0; Settle 0 false].

(** Two messages of which the first may be tried only once. *)
Definition one_shot_then_farewell : list Event :=
  [Session (Ready "bot"); Enqueue (once greeting 1) 1%N; Enqueue farewell 2%N].

(** The session is logged out while the first send is in flight; the send
    fails and the back-off delay elapses. *)
Definition logged_out_mid_drain : World :=
  run [Enqueue greeting 1%N; Session Logout; Settle 0 false; Tick 8000]
      (ready None "bot").

(** A relay with an orchestrator to forward to. *)
Definition forwarding : MessageHandlers.t :=
  (MessageHandlers.constructor (Some "http://orchestrator:3000/process-message")).1.

(** Case analysis on the counters of the accounting invariant. *)
Ltac count_cases :=
  unfold accounted, inflight, is_send, is_sent, is_failed, limit in *; simpl in *;
  repeat case_bool_decide; subst; try lia; try done.

(** * Facts *)

(** ** Lists *)

Lemma elem_of_tail {A} (x : A) (l : list A) : x ∈ tail l -> x ∈ l.
Proof. destruct l; simpl; [done|]. apply list_elem_of_further. Qed.

Lemma NoDup_tail {A} (l : list A) : NoDup l -> NoDup (tail l).
Proof. destruct l; simpl; [done|]. by intros [_ ?]%NoDup_cons. Qed.

Lemma head_not_in_tail {A} (x : A) (l : list A) :
  NoDup l -> head l = Some x -> x ∉ tail l.
Proof. destruct l; simpl; [done|]. by intros [? _]%NoDup_cons [= ->]. Qed.

Lemma run_app es1 es2 w : run (es1 ++ es2) w = run es2 (run es1 w).
Proof. apply foldl_app. Qed.

Lemma run_snoc es e w : run (es ++ [e]) w = step e (run es w).
Proof. unfold run. by rewrite foldl_snoc. Qed.

(** ** The shape of reachable worlds is kept by every event *)

Lemma retryable_bump_bounded it : retryable it -> bounded (bump it).
Proof. unfold retryable, bounded, limit. simpl. lia. Qed.

Lemma retryable_bump_retry it :
  bounded it -> (maxAttempts (bump it) <=? attempts (bump it))%Z = false ->
  retryable (bump it).
Proof. unfold retryable, bounded, limit. simpl. intros H1 H2%Z.leb_gt. lia. Qed.

Lemma retryable_final it :
  retryable it -> (maxAttempts (bump it) <=? attempts (bump it))%Z = true ->
  (attempts it + 1 = limit it)%Z.
Proof. unfold retryable, limit. simpl. intros H1 H2%Z.leb_le. lia. Qed.

Lemma Sound_ext w w' :
  queue w' = queue w -> heap w' = heap w -> Sound w -> Sound w'.
Proof. intros Hq Hh [? ? ? ?]. split; rewrite ?Hq, ?Hh; done. Qed.

Lemma catch_block_eq r w it :
  heap w !! r = Some it ->
  catch_block r w =
    if (maxAttempts it <=? attempts it + 1)%Z then
      (set_queue (tail (queue w)) (emit (Failed r) (bumped r it w)), None)
    else
      (emit (Delay (rateLimitDelay w * (attempts it + 1))) (bumped r it w),
       Some (AwaitDelay (now w + rateLimitDelay w * (attempts it + 1)))).
Proof. intros Hit. unfold catch_block. by rewrite Hit. Qed.

Lemma catch_block_sound r w w' c it :
  Sound w -> heap w !! r = Some it -> retryable it ->
  (r ∈ queue w -> head (queue w) = Some r) ->
  catch_block r w = (w', c) ->
  Sound w' /\ tasks w' = tasks w /\ isProcessing w' = isProcessing w /\
  match c with
  | None => queue w' = tail (queue w)
  | Some c => queue w' = queue w /\ exists d, c = AwaitDelay d
  end.
Proof.
  intros S Hit Hre Hhd. unfold catch_block. rewrite Hit.
  assert (forall r' it', <[r:=bump it]> (heap w) !! r' = Some it' -> bounded it') as Hb.
  { intros r' it' Hl. destruct (decide (r = r')) as [<-|Hne].
    - rewrite list_lookup_insert_eq in Hl by (by eapply lookup_lt_Some).
      injection Hl as <-. by apply retryable_bump_bounded.
    - rewrite list_lookup_insert_ne in Hl by done. by apply (sound_heap _ S r'). }
  destruct (Z.leb_spec (maxAttempts (bump it)) (attempts (bump it))) as [Hge|Hlt];
    intros [= <- <-]; simpl.
  - split; [|done]. split; simpl; [| |  |done].
    + intros r' Hr'%elem_of_tail. rewrite length_insert. by apply (sound_alloc _ S).
    + apply NoDup_tail, (sound_nodup _ S).
    + intros r' it' Hr' Hl.
      assert (r <> r') as Hne.
      { intros ->. eapply head_not_in_tail; [apply (sound_nodup _ S)| |done].
        by apply Hhd, elem_of_tail. }
      rewrite list_lookup_insert_ne in Hl by done.
      apply (sound_queue _ S r'); [|done]. by apply elem_of_tail.
  - split; [|eauto 10]. split; simpl; [| | |done].
    + intros r' Hr'. rewrite length_insert. by apply (sound_alloc _ S).
    + apply (sound_nodup _ S).
    + intros r' it' Hr' Hl. destruct (decide (r = r')) as [<-|Hne].
      * rewrite list_lookup_insert_eq in Hl by (by eapply lookup_lt_Some).
        injection Hl as <-. apply retryable_bump_retry.
        -- by apply (sound_heap _ S r).
        -- by apply Z.leb_gt.
      * rewrite list_lookup_insert_ne in Hl by done. by apply (sound_queue _ S r').
Qed.

Lemma loop_sound q w w' c :
  Sound w -> q = queue w -> loop q w = (w', c) ->
  Sound w' /\ tasks w' = tasks w /\
  match c with
  | None => isProcessing w' = false
  | Some (AwaitSend r) =>
      isProcessing w' = isProcessing w /\ head (queue w') = Some r /\
      exists it, heap w' !! r = Some it /\ retryable it
  | Some (AwaitDelay _) => isProcessing w' = isProcessing w
  end.
Proof.
  revert w w' c. induction q as [|r q IH]; intros w w' c S Hq; cbn [loop].
  { intros [= <- <-]. split; [by apply (Sound_ext w)|done]. }
  assert (r ∈ queue w) as Hin by (rewrite <- Hq; left).
  destruct (lookup_lt_is_Some_2 (heap w) r) as [it Hit]; [by apply (sound_alloc _ S)|].
  rewrite Hit.
  assert (retryable it) as Hre by (by eapply (sound_queue _ S)).
  destruct (queue_getClient w) as [h|e].
  - intros [= <- <-]. simpl. rewrite <- Hq. split; [by apply (Sound_ext w)|eauto 10].
  - destruct (catch_block r w) as [w1 [c1|]] eqn:Hcb;
    eapply catch_block_sound in Hcb as (S1 & Ht & Hp & Hk); eauto;
      try (by rewrite <- Hq).
    + intros [= <- <-]. destruct Hk as [_ [d ->]]. done.
    + intros Hl. apply IH in Hl as (S' & Ht' & Hk'); [|done|by rewrite Hk, <- Hq].
      split; [done|]. rewrite Ht'. split; [done|].
      destruct c as [[r'|d]|]; [|congruence|done].
      destruct Hk' as (-> & ?). by rewrite Hp.
Qed.

Lemma landing w c :
  Sound w -> tasks w = [] -> landed w c -> Inv (spawn c w).
Proof.
  intros S Ht Hl. destruct c as [[r|d]|]; simpl in *.
  - destruct Hl as (Hp & Hh & Hit). split.
    + by apply (Sound_ext w).
    + right. exists (AwaitSend r). by rewrite Ht.
    + intros r'. simpl. rewrite Ht. intros [= ->]%list_elem_of_singleton. done.
  - split.
    + by apply (Sound_ext w).
    + right. exists (AwaitDelay d). by rewrite Ht.
    + intros r'. simpl. rewrite Ht. by intros ?%list_elem_of_singleton.
  - split; [done|by left|]. intros r'. rewrite Ht. by intros ?%elem_of_nil.
Qed.

Lemma loop_landed w w' c :
  Sound w -> isProcessing w = true -> tasks w = [] ->
  loop (queue w) w = (w', c) ->
  Inv (spawn c w').
Proof.
  intros S Hp Ht Hl. apply loop_sound in Hl as (S' & Ht' & Hk); [|done..].
  apply landing; [done|congruence|].
  destruct c as [[r|d]|]; simpl; [|congruence|done].
  destruct Hk as (-> & ?). done.
Qed.

Lemma idle_no_task w : Inv w -> isProcessing w = false -> tasks w = [].
Proof.
  intros I Hp. destruct (inv_tasks _ I) as [[? _]|(c' & _ & ?)]; [done|congruence].
Qed.

Lemma process_inv w : Inv w -> Inv (process w).
Proof.
  intros I. unfold process.
  destruct (isProcessing w) eqn:Hp; [done|]. simpl.
  destruct (_ || _); [done|].
  destruct (loop _ _) as [w1 c] eqn:Hl.
  apply (loop_landed (set_isProcessing true w)) in Hl; [done| |done|].
  - apply (Sound_ext w); [done..|apply I].
  - simpl. by apply idle_no_task.
Qed.

Lemma push_inv it w : attempts it = 0%Z -> Inv w -> Inv (push it w).
Proof.
  intros H0 [S T A]. split.
  - split; simpl.
    + intros r [Hr| ->%list_elem_of_singleton]%elem_of_app; rewrite length_app; simpl.
      * apply (sound_alloc _ S) in Hr. lia.
      * lia.
    + apply NoDup_app. split; [apply S|]. split; [|apply NoDup_singleton].
      intros r Hr ->%list_elem_of_singleton. apply (sound_alloc _ S) in Hr. lia.
    + intros r it' [Hr| ->%list_elem_of_singleton]%elem_of_app Hl.
      * rewrite lookup_app_l in Hl by (by apply (sound_alloc _ S)).
        by apply (sound_queue _ S r).
      * rewrite lookup_app_r, Nat.sub_diag in Hl by done.
        injection Hl as <-. by left.
    + intros r it' Hl. apply lookup_app_Some in Hl as [Hl|[_ Hl]].
      * by apply (sound_heap _ S r).
      * destruct (r - length (heap w)); [|done]. injection Hl as <-.
        unfold bounded, limit. lia.
  - done.
  - intros r Hr. destruct (A r Hr) as [(it' & Hit & Hre) Hhd]. split.
    + exists it'. split; [|done]. simpl. apply lookup_app_l_Some. done.
    + simpl. intros [Hq| ->%list_elem_of_singleton]%elem_of_app.
      * rewrite head_app with (l2 := [length (heap w)]). by rewrite (Hhd Hq).
      * apply lookup_lt_Some in Hit. lia.
Qed.

Lemma enqueue_inv m rnd w : Inv w -> Inv (enqueue m rnd w).1.
Proof.
  intros I. unfold enqueue. destruct (_ || _); [done|]. simpl.
  pose proof (push_inv (new_item m rnd (now w)) w eq_refl I) as I1.
  destruct (isProcessing w); [done|]. by apply process_inv.
Qed.

Lemma task_is_only w k c :
  Inv w -> tasks w !! k = Some c -> k = 0 /\ tasks w = [c] /\ isProcessing w = true.
Proof.
  intros I Hk. destruct (inv_tasks _ I) as [[Ht _]|(c' & Ht & ?)].
  - by rewrite Ht in Hk.
  - rewrite Ht in Hk. destruct k; [|done]. by injection Hk as ->.
Qed.

Lemma step_inv e w : Inv w -> Inv (step e w).
Proof.
  intros I. destruct e as [m rnd| | |b|k ok|k|dt|e]; simpl.
  - by apply enqueue_inv.
  - by apply process_inv.
  - destruct I as [S T A]. split; [|done|].
    + split; simpl; [by intros ? ?%elem_of_nil|apply NoDup_nil_2|
                     by intros ?? ?%elem_of_nil|apply S].
    + intros r Hr. destruct (A r Hr) as [? _]. split; [done|]. by intros ?%elem_of_nil.
  - destruct I as [S T A]. split; [by apply (Sound_ext w)|done|done].
  - destruct (tasks w !! k) as [[r|d]|] eqn:Hk; [|done..].
    destruct (task_is_only _ _ _ I Hk) as (-> & Ht & Hp).
    destruct (inv_await _ I r) as [(it & Hit & Hre) Hhd]; [rewrite Ht; left|].
    set (w0 := set_tasks _ w).
    assert (Sound w0) as S0 by (apply (Sound_ext w); [done..|apply I]).
    assert (tasks w0 = []) as Ht0 by (unfold w0; simpl; by rewrite Ht).
    assert (isProcessing w0 = true) as Hp0 by done.
    unfold resume_send. destruct ok.
    + apply landing; simpl; [|done..]. destruct S0. split; simpl; [| |  |done].
      * intros r' Hr'%elem_of_tail. auto.
      * by apply NoDup_tail.
      * intros r' it' Hr'%elem_of_tail. eauto.
    + destruct (catch_block r w0) as [w1 [c1|]] eqn:Hcb;
        eapply catch_block_sound in Hcb as (S1 & Ht1 & Hp1 & Hq1); eauto.
      * destruct Hq1 as [_ [d ->]]. apply landing; [done|congruence|]. simpl. congruence.
      * destruct (loop _ _) as [w2 c] eqn:Hl.
        apply loop_landed in Hl; [done..|congruence|congruence].
  - destruct (tasks w !! k) as [[r|d]|] eqn:Hk; [done| |done].
    destruct (task_is_only _ _ _ I Hk) as (-> & Ht & Hp).
    destruct (d <=? now w)%Z; [|done].
    unfold resume_delay. destruct (loop _ _) as [w2 c] eqn:Hl.
    apply (loop_landed (set_tasks (delete 0 (tasks w)) w)) in Hl;
      [done| |done|simpl; by rewrite Ht].
    apply (Sound_ext w); [done..|apply I].
  - destruct (0 <=? dt)%Z; [|done]. destruct I as [S T A].
    split; [by apply (Sound_ext w)|done|done].
  - destruct I as [S T A]. split; [by apply (Sound_ext w)|done|done].
Qed.

Lemma new_World_inv d : Inv (new_World d).
Proof.
  split.
  - split; simpl; [by intros ? ?%elem_of_nil|apply NoDup_nil_2|
                   by intros ?? ?%elem_of_nil|done].
  - by left.
  - by intros r ?%elem_of_nil.
Qed.

Lemma run_inv es w : Inv w -> Inv (run es w).
Proof.
  revert w. induction es as [|e es IH]; intros w I; [done|].
  simpl. apply IH. by apply step_inv.
Qed.

(** ** With a client object at hand every attempt is accounted for *)

Lemma queue_getClient_attached w :
  client w = true -> is_Some (wa_client (session w)) ->
  exists h, queue_getClient w = Ok h.
Proof.
  intros Hc [h Hh]. exists h. unfold queue_getClient, getClient. by rewrite Hc, Hh.
Qed.

(** With a client object at hand the loop dispatches the head item or ends. *)
Lemma loop_attached w :
  client w = true -> is_Some (wa_client (session w)) ->
  loop (queue w) w =
    match queue w with
    | [] => (set_isProcessing false w, None)
    | r :: _ =>
        match heap w !! r with
        | Some it =>
            (emit (CallSend r (to it +:+ "@c.us") (content it)) w, Some (AwaitSend r))
        | None => (w, None)
        end
    end.
Proof.
  intros Hc Hh. destruct (queue w) as [|r q]; [done|]. cbn [loop].
  destruct (heap w !! r); [|done].
  by destruct (queue_getClient_attached w Hc Hh) as [h ->].
Qed.

Lemma Core_ext w w' :
  queue w' = queue w -> heap w' = heap w -> log w' = log w ->
  client w' = client w -> is_Some (wa_client (session w')) ->
  (forall r, inflight (tasks w') r = inflight (tasks w) r) ->
  Core w -> Core w'.
Proof.
  intros Hq Hh Hl Hc Hs Hi [S ? ? F A]. split; try done.
  - by apply (Sound_ext w).
  - congruence.
  - rewrite Hh, Hl. done.
  - rewrite Hh. intros r it Hr. unfold accounted. rewrite Hq, Hl, Hi. by apply A.
Qed.

Lemma dispatch_attached w :
  Core w -> tasks w = [] -> isProcessing w = true ->
  forall w' c, loop (queue w) w = (w', c) -> Attached (spawn c w').
Proof.
  intros C Ht Hp w' c. rewrite loop_attached by apply C.
  destruct (queue w) as [|r0 q] eqn:Hq.
  - intros [= <- <-]. simpl. split.
    + destruct C as [S ? ? F A]. split; try done.
      by apply (Sound_ext w).
    + apply (landing (set_isProcessing false w) None); [|done..].
      apply (Sound_ext w); [done..|apply C].
    + simpl. by rewrite Ht.
  - destruct (lookup_lt_is_Some_2 (heap w) r0) as [it0 Hit0].
    { apply (sound_alloc _ (core_sound _ C)). rewrite Hq. left. }
    rewrite Hit0. intros [= <- <-]. split.
    + destruct C as [S ? ? F A]. split; try done.
      * by apply (Sound_ext w).
      * simpl. intros r Hr. destruct (F r Hr) as (? & ? & ?).
        apply lookup_lt_Some in Hit0. count_cases.
      * simpl. intros r it Hl. specialize (A r it Hl).
        unfold accounted in *. simpl. rewrite Ht, Hq in A. rewrite Ht, Hq.
        destruct A as [A1 A2]. split; intros Hin.
        -- specialize (A1 Hin). count_cases.
        -- specialize (A2 Hin). assert (r0 <> r) by (intros ->; apply Hin; left).
           count_cases.
    + apply (landing _ (Some (AwaitSend r0))); simpl; [|done|].
      * apply (Sound_ext w); [done..|apply C].
      * rewrite Hq. repeat split; try done. exists it0. split; [done|].
        apply (sound_queue _ (core_sound _ C) r0); [rewrite Hq; left|done].
    + simpl. rewrite Ht, Hq. by intros r [= ->].
Qed.

Lemma session_step_handle e s :
  e <> Logout -> is_Some (wa_client s) -> is_Some (wa_client (session_step e s)).
Proof.
  intros He [h Hh]. unfold session_step. rewrite Hh. destruct e; simpl; eauto. done.
Qed.

Lemma attached_queue w r :
  Attached w -> tasks w = [AwaitSend r] ->
  exists q it, queue w = r :: q /\ (r ∉ q) /\ heap w !! r = Some it /\ retryable it.
Proof.
  intros A Ht. pose proof (att_head _ A r Ht) as Hh.
  destruct (queue w) as [|x q] eqn:Hq; [done|]. injection Hh as ->.
  pose proof (sound_nodup _ (core_sound _ (att_core _ A))) as ND.
  rewrite Hq in ND. apply NoDup_cons in ND as [Hnin _].
  destruct (inv_await _ (att_inv _ A) r) as [(it & Hit & Hre) _]; [rewrite Ht; left|].
  eauto 10.
Qed.

Lemma process_attached w : Attached w -> Attached (process w).
Proof.
  intros A. unfold process.
  destruct (isProcessing w) eqn:Hp; [done|]. simpl.
  destruct (_ || _); [done|].
  destruct (loop _ _) as [w1 c] eqn:Hl.
  pose proof (idle_no_task w (att_inv _ A) Hp) as Ht.
  eapply (dispatch_attached (set_isProcessing true w)); [|done..].
  eapply Core_ext; [..|apply A]; try done. apply A.
Qed.

Lemma push_attached it w : attempts it = 0%Z -> Attached w -> Attached (push it w).
Proof.
  intros H0 A. pose proof (push_inv it w H0 (att_inv _ A)) as I'.
  destruct A as [[S Hc Hh F Ac] I Hd]. split; [|done|].
  - split; try done; [apply I'|..].
    + intros r. simpl. rewrite length_app. simpl. intros Hr. apply F. lia.
    + simpl. intros r it' Hl. apply lookup_app_Some in Hl as [Hl|[Hge Hl]].
      * assert (r <> length (heap w)) by (apply lookup_lt_Some in Hl; lia).
        specialize (Ac r it' Hl). unfold accounted in *. simpl.
        destruct Ac as [Ac1 Ac2]. split; intros Hin.
        -- apply Ac1. apply elem_of_app in Hin as [?| ?%list_elem_of_singleton]; done.
        -- apply Ac2. intros ?. apply Hin, elem_of_app. by left.
      * destruct (r - length (heap w)) eqn:E; [|done]. injection Hl as <-.
        assert (r = length (heap w)) as -> by lia.
        destruct (F (length (heap w))) as (F1 & F2 & F3); [done|].
        unfold accounted. simpl. split.
        -- intros _. rewrite F1, F2, F3, H0. repeat split; try done.
           unfold inflight. destruct (tasks w) as [|[r0|] [|]] eqn:Ht; try done.
           case_bool_decide; [|done]. subst.
           destruct (inv_await _ I (length (heap w))) as [(? & ?%lookup_lt_Some & _) _];
             [rewrite Ht; left|lia].
        -- intros Hn. exfalso. apply Hn, elem_of_app. right. left.
  - simpl. intros r Ht. rewrite head_app with (l2 := [length (heap w)]).
    by rewrite (Hd r Ht).
Qed.

Lemma enqueue_attached m rnd w : Attached w -> Attached (enqueue m rnd w).1.
Proof.
  intros A. unfold enqueue. destruct (_ || _); [done|]. simpl.
  pose proof (push_attached (new_item m rnd (now w)) w eq_refl A) as A1.
  destruct (isProcessing w); [done|]. by apply process_attached.
Qed.

Lemma settle_attached k ok w : Attached w -> Attached (step (Settle k ok) w).
Proof.
  intros A. pose proof (step_inv (Settle k ok) w (att_inv _ A)) as I'. simpl in *.
  destruct (tasks w !! k) as [[r|d]|] eqn:Hk; [|done..].
  destruct (task_is_only _ _ _ (att_inv _ A) Hk) as (-> & Ht & Hp).
  destruct (attached_queue w r A Ht) as (q & it & Hq & Hnin & Hit & Hre).
  destruct A as [[S Hc Hh F Ac] I Hd].
  unfold resume_send in *. destruct ok.
  - (* the send succeeded *)
    split; [|done|by rewrite Ht].
    split; try done; [apply I'|..].
    + simpl. intros r' Hr'. destruct (F r' Hr') as (? & ? & ?).
      apply lookup_lt_Some in Hit. count_cases.
    + simpl. intros r' it' Hl. specialize (Ac r' it' Hl).
      unfold accounted in *. simpl. rewrite Ht, Hq in *. simpl.
      destruct Ac as [Ac1 Ac2]. split; intros Hin.
      * assert (r <> r') by (by intros ->).
        destruct Ac1 as (? & ? & ?); [by right|]. count_cases.
      * destruct (decide (r' = r)) as [->|Hne].
        -- destruct Ac1 as (? & ? & ?); [left|]. left. count_cases.
        -- destruct Ac2 as [?|?]; [by intros [?|?]%elem_of_cons|..]; count_cases.
  - (* the send failed *)
    rewrite (catch_block_eq r _ it) in * by done.
    destruct (maxAttempts it <=? attempts it + 1)%Z eqn:Hmax.
    + (* it was the last attempt *)
      cbn [queue set_tasks tail] in *. rewrite Hq in *. cbn [tail] in *.
      set (w2 := set_queue q _) in *.
      destruct (loop (queue w2) w2) as [w3 c] eqn:Hl.
      assert (Core w2) as C2.
      { pose proof (catch_block_sound r (set_tasks (delete 0 (tasks w)) w)) as Hs.
        rewrite (catch_block_eq r _ it) in Hs by done. rewrite Hmax in Hs.
        edestruct Hs as (S2 & _); [by apply (Sound_ext w)|done..| |done|].
        { simpl. rewrite Hq. by intros _. }
        cbn [queue set_tasks tail] in S2. rewrite Hq in S2.
        split; try done.
        - simpl. intros r' Hr'. rewrite length_insert in Hr'.
          destruct (F r' Hr') as (? & ? & ?).
          apply lookup_lt_Some in Hit. count_cases.
        - simpl. intros r' it' Hl'. unfold accounted. simpl.
          destruct (decide (r = r')) as [<-|Hne].
          + rewrite list_lookup_insert_eq in Hl' by (by eapply lookup_lt_Some).
            injection Hl' as <-. split; [done|]. intros _. right.
            destruct (Ac r it Hit) as [(? & ? & ?) _]; [rewrite Hq; left|].
            rewrite Ht in *. pose proof (retryable_final it Hre Hmax).
            count_cases.
          + rewrite list_lookup_insert_ne in Hl' by done.
            specialize (Ac r' it' Hl'). unfold accounted in Ac.
            rewrite Ht, Hq in Ac. destruct Ac as [Ac1 Ac2]. split; intros Hin.
            * destruct Ac1 as (? & ? & ?); [by right|]. rewrite Ht. count_cases.
            * destruct Ac2 as [?|?]; [by intros [?|?]%elem_of_cons|..]; count_cases. }
      eapply (dispatch_attached w2); [done| |done|done]. simpl. by rewrite Ht.
    + (* the item is retried after the back-off delay *)
      split; [|done|by rewrite Ht].
      split; try done; [apply I'|..].
      * simpl. intros r' Hr'. rewrite length_insert in Hr'.
        destruct (F r' Hr') as (? & ? & ?). count_cases.
      * simpl. intros r' it' Hl'. unfold accounted. simpl. rewrite Ht. simpl.
        destruct (decide (r = r')) as [<-|Hne].
        -- rewrite list_lookup_insert_eq in Hl' by (by eapply lookup_lt_Some).
           injection Hl' as <-. split; [|by rewrite Hq; intros []; left].
           intros _. destruct (Ac r it Hit) as [(? & ? & ?) _]; [rewrite Hq; left|].
           rewrite Ht in *. count_cases.
        -- rewrite list_lookup_insert_ne in Hl' by done.
           specialize (Ac r' it' Hl'). unfold accounted in Ac.
           rewrite Ht in Ac. destruct Ac as [Ac1 Ac2]. split; intros Hin.
           ++ destruct Ac1 as (? & ? & ?); [done|]. count_cases.
           ++ destruct Ac2 as [?|?]; [done|..]; count_cases.
Qed.

Lemma fire_attached k w : Attached w -> Attached (step (Fire k) w).
Proof.
  intros A. simpl.
  destruct (tasks w !! k) as [[r|d]|] eqn:Hk; [done| |done].
  destruct (task_is_only _ _ _ (att_inv _ A) Hk) as (-> & Ht & Hp).
  destruct (d <=? now w)%Z; [|done].
  unfold resume_delay. destruct (loop _ _) as [w1 c] eqn:Hl.
  eapply (dispatch_attached (set_tasks (delete 0 (tasks w)) w)); [|by rewrite Ht|done..].
  eapply Core_ext; [..|apply A]; try done; [apply A|].
  intros r. simpl. by rewrite Ht.
Qed.

Lemma step_attached e w : normal e -> Attached w -> Attached (step e w).
Proof.
  intros N A. destruct e as [m rnd| | |b|k ok|k|dt|e].
  - by apply enqueue_attached.
  - by apply process_attached.
  - done.
  - destruct b; [|done]. simpl. destruct A as [C I Hd].
    split; [|by apply (step_inv (SetClient true))|done].
    apply (Core_ext w); [done|done|done|simpl; by rewrite (core_client _ C)|apply C|done|done].
  - by apply settle_attached.
  - by apply fire_attached.
  - pose proof (step_inv (Tick dt) w (att_inv _ A)) as I'. simpl in *.
    destruct (0 <=? dt)%Z; [|done]. destruct A as [C I Hd]. split; [|done..].
    eapply Core_ext; [..|apply C]; try done. apply C.
  - pose proof (step_inv (Session e) w (att_inv _ A)) as I'. simpl in *.
    destruct A as [C I Hd]. split; [|done..].
    eapply Core_ext; [..|apply C]; try done. simpl.
    apply session_step_handle; [by intros ->|apply C].
Qed.

Lemma attached_Attached d : Attached (attached d).
Proof.
  assert (Sound (attached d)) as S.
  { split; simpl; [by intros ? ?%elem_of_nil|apply NoDup_nil_2|
                   by intros ?? ?%elem_of_nil|done]. }
  split.
  - split; simpl; [done|done|by eexists|done|done].
  - split; [done|by left|by intros r ?%elem_of_nil].
  - done.
Qed.

Lemma run_attached es w : Forall normal es -> Attached w -> Attached (run es w).
Proof.
  intros H. revert w. induction H as [|e es He _ IH]; intros w A; [done|].
  simpl. apply IH. by apply step_attached.
Qed.

Lemma ready_Attached d ci : Attached (ready d ci).
Proof.
  change (ready d ci) with (run [Session (Ready ci)] (attached d)).
  apply run_attached; [by repeat constructor|apply attached_Attached].
Qed.

Lemma smooth_normal e : smooth e -> normal e.
Proof. destruct e as [| | |[]|? []| | |[]]; done. Qed.

(** ** What no event changes, and what only some events change *)

Lemma catch_block_quiet r w : quiet w (catch_block r w).1.
Proof.
  unfold catch_block, quiet, same_frame. destruct (heap w !! r); [|done].
  by destruct (_ <=? _)%Z.
Qed.

Lemma loop_quiet q w : quiet w (loop q w).1.
Proof.
  revert w. induction q as [|r q IH]; intros w; cbn [loop]; [done|].
  destruct (heap w !! r); [|done]. destruct (queue_getClient w); [done|].
  pose proof (catch_block_quiet r w) as Hq.
  destruct (catch_block r w) as [w1 [c|]]; simpl in *; [done|].
  destruct (IH w1) as (? & ? & ? & ? & ?), Hq as (? & ? & ? & ? & ?).
  unfold quiet, same_frame. split_and!; congruence.
Qed.

Lemma spawn_quiet c w : quiet w (spawn c w).
Proof. by destruct c. Qed.

Lemma same_frame_trans w1 w2 w3 :
  same_frame w1 w2 -> same_frame w2 w3 -> same_frame w1 w3.
Proof. unfold same_frame. intros (? & ? & ? & ?) (? & ? & ? & ?). split_and!; congruence. Qed.

Lemma process_frame w : same_frame w (process w).
Proof.
  unfold process. destruct (_ || _); [done|].
  pose proof (loop_quiet (queue w) (set_isProcessing true w)) as (_ & Hf).
  destruct (loop _ _) as [w1 c]. simpl in Hf.
  apply (same_frame_trans w w1); [exact Hf|apply spawn_quiet].
Qed.

Lemma resume_send_frame r ok w : same_frame w (resume_send r ok w).1.
Proof.
  unfold resume_send. destruct ok; [done|].
  pose proof (catch_block_quiet r w) as (_ & Hc).
  destruct (catch_block r w) as [w1 [c|]]; [done|]. simpl in Hc.
  apply (same_frame_trans w w1); [done|apply loop_quiet].
Qed.

Lemma spawned_frame w (r : World * option Cont) :
  same_frame w r.1 -> same_frame w (let '(w1, c) := r in spawn c w1).
Proof.
  destruct r as [w1 c]. intros H. apply (same_frame_trans w w1); [done|apply spawn_quiet].
Qed.

(** The configured delay never changes, and the session wrapper changes only
    by what happens to the session. *)
Lemma step_frame e w :
  rateLimitDelay (step e w) = rateLimitDelay w /\
  session (step e w) =
    match e with Session e' => session_step e' (session w) | _ => session w end.
Proof.
  destruct e as [m rnd| | |b|k ok|k|dt|e]; simpl; try done.
  - unfold enqueue. destruct (_ || _); [done|]. simpl.
    destruct (isProcessing w); [done|].
    by destruct (process_frame (push (new_item m rnd (now w)) w)) as (_ & -> & -> & _).
  - by destruct (process_frame w) as (_ & -> & -> & _).
  - destruct (tasks w !! k) as [[r|d]|]; try done.
    pose proof (spawned_frame (set_tasks (delete k (tasks w)) w) _
                  (resume_send_frame r ok _)) as (_ & -> & -> & _). done.
  - destruct (tasks w !! k) as [[r|d]|]; try done.
    destruct (_ <=? _)%Z; [|done].
    pose proof (spawned_frame (set_tasks (delete k (tasks w)) w) (resume_delay _))
      as (_ & -> & -> & _); [apply loop_quiet|done].
  - by destruct (_ <=? _)%Z.
Qed.

Lemma run_rateLimitDelay es w : rateLimitDelay (run es w) = rateLimitDelay w.
Proof.
  revert w. induction es as [|e es IH]; intros w; [done|].
  simpl. rewrite IH. apply step_frame.
Qed.

Lemma session_step_ok e s : session_ok s -> session_ok (session_step e s).
Proof.
  unfold session_ok, session_step. intros H.
  destruct e, (wa_client s) eqn:E; simpl; intros Hr; rewrite ?E; eauto;
    try done; by destruct (H Hr).
Qed.


(** *** The fields [enqueue] fixed *)

Lemma static_bump (h : list Item) (r : nat) it :
  h !! r = Some it -> static <$> <[r:=bump it]> h = static <$> h.
Proof.
  intros Hit. rewrite list_fmap_insert.
  apply list_insert_id. by rewrite list_lookup_fmap, Hit.
Qed.

Lemma catch_block_static r w :
  static <$> heap (catch_block r w).1 = static <$> heap w.
Proof.
  unfold catch_block. destruct (heap w !! r) as [it|] eqn:Hit; [|done].
  destruct (_ <=? _)%Z; simpl; by apply static_bump.
Qed.

Lemma loop_static q w : static <$> heap (loop q w).1 = static <$> heap w.
Proof.
  revert w. induction q as [|r q IH]; intros w; cbn [loop]; [done|].
  destruct (heap w !! r); [|done]. destruct (queue_getClient w); [done|].
  pose proof (catch_block_static r w) as Hs.
  destruct (catch_block r w) as [w1 [c|]]; simpl in *; [done|].
  by rewrite IH.
Qed.

Lemma spawn_heap c w : heap (spawn c w) = heap w.
Proof. by destruct c. Qed.

Lemma process_static w : static <$> heap (process w) = static <$> heap w.
Proof.
  unfold process. destruct (_ || _); [done|].
  pose proof (loop_static (queue w) (set_isProcessing true w)) as Hs.
  destruct (loop _ _) as [w1 c]. by rewrite spawn_heap.
Qed.

Lemma step_static e w :
  static <$> heap (step e w) = (static <$> heap w) ++ created e w.
Proof.
  destruct e as [m rnd| | |b|k ok|k|dt|e]; simpl; rewrite ?app_nil_r; try done.
  - unfold enqueue, valid. destruct (truthy (m_to m)), (truthy (m_content m)); simpl;
      rewrite ?app_nil_r; try done.
    destruct (isProcessing w); rewrite ?process_static; simpl; by rewrite fmap_app.
  - apply process_static.
  - destruct (tasks w !! k) as [[r|d]|]; try done.
    unfold resume_send. destruct ok; simpl; [done|].
    pose proof (catch_block_static r (set_tasks (delete k (tasks w)) w)) as Hs.
    destruct (catch_block _ _) as [w1 [c|]]; simpl in *; [done|].
    pose proof (loop_static (queue w1) w1) as Hl.
    destruct (loop _ _) as [w2 c]. simpl in *. rewrite spawn_heap. congruence.
  - destruct (tasks w !! k) as [[r|d]|]; try done.
    destruct (_ <=? _)%Z; [|done]. unfold resume_delay.
    pose proof (loop_static (queue w) (set_tasks (delete k (tasks w)) w)) as Hl.
    destruct (loop _ _) as [w2 c]. simpl in *. by rewrite spawn_heap.
  - by destruct (_ <=? _)%Z.
Qed.


Lemma wire_static it : wire (static it) = wire it.
Proof. done. Qed.

Lemma wire_heap (h : list Item) : wire <$> (static <$> h) = wire <$> h.
Proof. rewrite <- list_fmap_compose. by apply list_fmap_ext. Qed.

Lemma run_wire es w :
  wire <$> heap (run es w) = (wire <$> heap w) ++ (addressed <$> accepted es).
Proof.
  revert w. induction es as [|e es IH]; intros w; simpl; [by rewrite app_nil_r|].
  rewrite IH, <- (wire_heap (heap (step e w))), step_static, fmap_app, wire_heap.
  rewrite <- app_assoc. f_equal.
  destruct e; simpl; try done. by destruct (valid m).
Qed.

(** ** After a completed send the worker rests for the configured delay *)












(** ** With every send succeeding the items leave in the order of arrival *)

Lemma dispatch_fifo w w' c :
  Sound w -> client w = true -> is_Some (wa_client (session w)) ->
  tasks w = [] -> Fifo w -> loop (queue w) w = (w', c) -> Fifo (spawn c w').
Proof.
  intros S Hc Hh Ht (k & Hk & Hq & Hd). rewrite loop_attached by done.
  rewrite Ht in Hd. simpl in Hd. rewrite Nat.add_0_r in Hd.
  destruct (queue w) as [|r q] eqn:Eq.
  - intros [= <- <-]. exists k. simpl. rewrite Ht, Eq. simpl. by rewrite Nat.add_0_r.
  - destruct (length (heap w) - k) as [|n] eqn:En; [done|].
    simpl in Hq. injection Hq as -> ->.
    destruct (lookup_lt_is_Some_2 (heap w) k) as [it Hit]; [lia|].
    rewrite Hit. intros [= <- <-]. exists k. simpl. rewrite Ht, Eq, En. simpl.
    split_and!; [done..|].
    rewrite reverse_cons, Hd, Nat.add_1_r. symmetry. apply take_S_r.
    by rewrite list_lookup_fmap, Hit.
Qed.

Lemma push_fifo it w : Attached w -> Fifo w -> Fifo (push it w).
Proof.
  intros A (k & Hk & Hq & Hd). exists k. simpl. rewrite length_app. simpl.
  split_and!; [lia| |].
  - rewrite Hq. replace (length (heap w) + 1 - k) with (S (length (heap w) - k)) by lia.
    rewrite seq_S. do 2 f_equal. lia.
  - rewrite Hd, fmap_app, take_app_le; [done|]. rewrite length_fmap.
    destruct (tasks w) as [|[r|d] [|]] eqn:Ht; simpl; try lia.
    pose proof (att_head _ A r Ht) as Hh. rewrite Hq in Hh.
    destruct (length (heap w) - k) eqn:E; [done|lia].
Qed.

Lemma process_fifo w : Attached w -> Fifo w -> Fifo (process w).
Proof.
  intros A F. unfold process.
  destruct (isProcessing w) eqn:Hp; [done|]. simpl.
  destruct (_ || _); [done|].
  pose proof (idle_no_task w (att_inv _ A) Hp) as Ht.
  destruct (loop _ _) as [w1 c] eqn:Hl.
  apply (dispatch_fifo (set_isProcessing true w)); try done; try apply A.
  apply (Sound_ext w); [done..|apply A].
Qed.

Lemma step_fifo e w : smooth e -> Attached w -> Fifo w -> Fifo (step e w).
Proof.
  intros Hs A F. destruct e as [m rnd| | |b|k ok|k|dt|e]; simpl; try done.
  - unfold enqueue. destruct (_ || _); [done|]. simpl.
    pose proof (push_attached (new_item m rnd (now w)) w eq_refl A) as A1.
    pose proof (push_fifo (new_item m rnd (now w)) w A F) as F1.
    destruct (isProcessing w); [done|]. by apply process_fifo.
  - by apply process_fifo.
  - destruct ok; [|done].
    destruct (tasks w !! k) as [[r|d]|] eqn:Hk; [|done..].
    destruct (task_is_only _ _ _ (att_inv _ A) Hk) as (-> & Ht & Hp).
    destruct F as (n & Hn & Hq & Hd). rewrite Ht in Hd. simpl in Hd.
    pose proof (att_head _ A r Ht) as Hh. rewrite Hq in Hh.
    destruct (length (heap w) - n) as [|j] eqn:Ej; [done|].
    exists (S n). simpl. rewrite Ht, Hq. simpl.
    split_and!; [lia|f_equal; lia|]. by rewrite Hd, Nat.add_1_r, Nat.add_0_r.
  - destruct (tasks w !! k) as [[r|d]|] eqn:Hk; [done| |done].
    destruct (task_is_only _ _ _ (att_inv _ A) Hk) as (-> & Ht & Hp).
    destruct (d <=? now w)%Z; [|done].
    unfold resume_delay. destruct (loop _ _) as [w2 c] eqn:Hl.
    apply (dispatch_fifo (set_tasks (delete 0 (tasks w)) w)); try done; try apply A.
    + apply (Sound_ext w); [done..|apply A].
    + simpl. by rewrite Ht.
    + destruct F as (n & Hn & Hq & Hd). exists n. simpl. by rewrite Ht in *.
  - by destruct (_ <=? _)%Z.
Qed.

Lemma run_fifo es w :
  Forall smooth es -> Attached w -> Fifo w -> Fifo (run es w).
Proof.
  intros H. revert w. induction H as [|e es He _ IH]; intros w A F; [done|].
  simpl. apply IH; [|by apply step_fifo].
  apply step_attached; [by apply smooth_normal|done].
Qed.

Lemma ready_fifo d ci : Fifo (ready d ci).
Proof. exists 0. by split_and!. Qed.

Lemma dispatched_app l1 l2 :
  dispatched (l1 ++ l2) = dispatched l1 ++ dispatched l2.
Proof.
  induction l1 as [|[t a] l1 IH]; [done|]. simpl. destruct a; simpl; by rewrite ?IH.
Qed.

Lemma dispatched_reverse l : dispatched (reverse l) = reverse (dispatched l).
Proof.
  induction l as [|[t a] l IH]; [done|].
  rewrite reverse_cons, dispatched_app, IH.
  destruct a; simpl; rewrite ?app_nil_r; try done. by rewrite reverse_cons.
Qed.

(** ** One transition at a time *)

Lemma valid_spec m :
  valid m = true ->
  (negb (truthy (m_to m)) || negb (truthy (m_content m))) = false.
Proof. unfold valid. by destruct (truthy (m_to m)), (truthy (m_content m)). Qed.


(** At the loop test with a client object at hand and [r] at the head, the
    worker calls [sendMessage] for [r]. *)
Lemma loop_head w r q it h :
  queue w = r :: q -> heap w !! r = Some it ->
  client w = true -> wa_client (session w) = Some h ->
  loop (queue w) w =
    (emit (CallSend r (to it +:+ "@c.us") (content it)) w, Some (AwaitSend r)).
Proof.
  intros Hq Hit Hc Hh. rewrite Hq. cbn [loop]. rewrite Hit.
  unfold queue_getClient, getClient. by rewrite Hc, Hh.
Qed.

Lemma process_idle_ready w r q it h :
  isProcessing w = false -> queue w = r :: q -> heap w !! r = Some it ->
  client w = true -> isReady (session w) = true -> wa_client (session w) = Some h ->
  process w =
    spawn (Some (AwaitSend r))
      (emit (CallSend r (to it +:+ "@c.us") (content it)) (set_isProcessing true w)).
Proof.
  intros Hp Hq Hit Hc Hr Hh. unfold process. rewrite Hp, Hc, Hr.
  replace (length (queue w) =? 0) with false by (by rewrite Hq). simpl.
  change (queue w) with (queue (set_isProcessing true w)).
  by rewrite (loop_head (set_isProcessing true w) r q it h).
Qed.

Lemma process_not_ready w :
  client w && isReady (session w) = false -> process w = w.
Proof. intros H. unfold process. rewrite H. simpl. by rewrite !orb_true_r. Qed.

Lemma settle_ok w r :
  tasks w = [AwaitSend r] ->
  step (Settle 0 true) w =
    set_tasks [AwaitDelay (now w + rateLimitDelay w)]
      (emit (Delay (rateLimitDelay w))
         (set_queue (tail (queue w)) (emit (Sent r) w))).
Proof. intros Ht. simpl. rewrite Ht. simpl. reflexivity. Qed.


Lemma settle_give_up w r it :
  tasks w = [AwaitSend r] -> heap w !! r = Some it ->
  (maxAttempts it <= attempts it + 1)%Z ->
  step (Settle 0 false) w =
    let w1 := set_queue (tail (queue w)) (emit (Failed r) (bumped r it (set_tasks [] w))) in
    let '(w2, c) := loop (queue w1) w1 in spawn c w2.
Proof.
  intros Ht Hit Hge. simpl. rewrite Ht. simpl. unfold resume_send.
  rewrite (catch_block_eq r _ it) by done.
  destruct (Z.leb_spec (maxAttempts it) (attempts it + 1)); [|lia]. reflexivity.
Qed.

Lemma fire_due w d :
  tasks w = [AwaitDelay d] -> (d <= now w)%Z ->
  step (Fire 0) w =
    let '(w1, c) := loop (queue w) (set_tasks [] w) in spawn c w1.
Proof.
  intros Ht Hd. simpl. rewrite Ht. simpl.
  destruct (Z.leb_spec d (now w)); [|lia]. reflexivity.
Qed.

Lemma tick_max w d : step (Tick (Z.max 0 d)) w = set_now (now w + Z.max 0 d) w.
Proof. simpl. destruct (Z.leb_spec 0 (Z.max 0 d)); [done|lia]. Qed.

(** ** The retries of one item *)

Lemma retry_schedule_normal rate a n : Forall normal (retry_schedule rate a n).
Proof. revert a. induction n; intros a; simpl; repeat constructor. apply IHn. Qed.




(** ** Three messages, every send succeeding *)

Lemma pause_step w r D :
  Attached w -> tasks w = [AwaitSend r] -> rateLimitDelay w = D ->
  let w' := run (pause D) w in
  Attached w' /\ queue w' = tail (queue w) /\ heap w' = heap w /\
  rateLimitDelay w' = D /\ now w' = (now w + Z.max 0 D)%Z /\
  match tail (queue w) with
  | [] =>
      tasks w' = [] /\ isProcessing w' = false /\
      log w' = (now w, Delay D) :: (now w, Sent r) :: log w
  | r' :: _ =>
      tasks w' = [AwaitSend r'] /\
      exists it', heap w !! r' = Some it' /\
        log w' = (now w', CallSend r' (to it' +:+ "@c.us") (content it')) ::
                 (now w, Delay D) :: (now w, Sent r) :: log w
  end.
Proof.
  intros A Ht <- w'.
  assert (Attached w') as A' by (apply run_attached; [by repeat constructor|done]).
  split; [done|].
  pose proof (core_handle _ (att_core _ A)) as Hh.
  pose proof (core_client _ (att_core _ A)) as Hc.
  pose proof (core_sound _ (att_core _ A)) as S.
  subst w'. unfold pause. cbn [run foldl]. rewrite (settle_ok w r) by done.
  rewrite tick_max. cbn [now set_now set_tasks emit set_queue].
  erewrite fire_due; [|reflexivity|simpl; lia].
  cbn [queue set_tasks set_now emit set_queue].
  match goal with |- context [loop (tail (queue w)) ?W0] => set (W := W0) end.
  change (loop (tail (queue w)) W) with (loop (queue W) W).
  rewrite (loop_attached W) by done. subst W.
  cbn [queue set_tasks set_now emit set_queue heap].
  destruct (tail (queue w)) as [|r' q'] eqn:Hq; [done|].
  destruct (lookup_lt_is_Some_2 (heap w) r') as [it' Hit'].
  { apply (sound_alloc _ S), elem_of_tail. rewrite Hq. left. }
  rewrite Hit'. simpl. eauto 10.
Qed.



(** ** The session and its handle *)

Lemma run_session_snoc es e :
  run_session (es ++ [e]) = session_step e (run_session es).
Proof. unfold run_session. by rewrite foldl_snoc. Qed.

Lemma live_spec es : live es = not_null (wa_client (run_session es)).
Proof.
  induction es as [|e es IH] using rev_ind; [done|].
  unfold live in *. rewrite foldl_snoc, IH, run_session_snoc. unfold session_step.
  by destruct e, (wa_client (run_session es)) eqn:E; simpl; rewrite ?E.
Qed.

Lemma run_session_ready_handle es : session_ok (run_session es).
Proof.
  induction es as [|e es IH] using rev_ind; [done|].
  rewrite run_session_snoc. by apply session_step_ok.
Qed.

(** C6, counterexample: right after [initialize()] the session is not ready,
    and [getClient()] hands out the client object instead of failing. *)
Lemma getClient_before_ready :
  isReady (run_session [Initialize]) = false /\
  getClient (run_session [Initialize]) = Ok {| info := None |}.
Proof. split; reflexivity. Qed.

(** C6, as the code has it: [getClient()] fails with the not-initialized
    error exactly when the wrapper holds no client object, that is before
    [initialize()] or after [logout()]; otherwise it returns the client
    object, whether or not the session has reached Ready.  A ready session
    always holds one, so then the call succeeds. *)
Theorem getClient_spec (es : list SessionEvent) :
  let s := run_session es in
  (getClient s = Throw not_initialized <-> wa_client s = None) /\
  (forall h, getClient s = Ok h <-> wa_client s = Some h) /\
  (wa_client s = None <-> live es = false) /\
  (isReady s = true -> exists h, getClient s = Ok h).
Proof.
  intros s. pose proof (live_spec es) as Hl. pose proof (run_session_ready_handle es) as Hr.
  fold s in Hl, Hr. unfold getClient, session_ok in *.
  destruct (wa_client s) as [h|]; simpl in Hl.
  - split_and!.
    + by split.
    + intros h'. split; congruence.
    + by rewrite Hl.
    + eauto.
  - split_and!.
    + done.
    + intros h'. by split.
    + by rewrite Hl.
    + intros H. by destruct (Hr H).
Qed.

(** The pair kept by [track] describes the wrapper. *)
Lemma track_spec es :
  foldl track (false, false) es =
    match wa_client (run_session es) with
    | Some h => (true, not_null (info h))
    | None => (false, false)
    end /\
  (isReady (run_session es) = true -> reached_ready es = true).
Proof.
  unfold reached_ready.
  induction es as [|e es [IH1 IH2]] using rev_ind; [done|].
  rewrite foldl_snoc, run_session_snoc, IH1.
  pose proof (run_session_ready_handle es) as Hok. unfold session_ok in Hok.
  unfold session_step. rewrite IH1 in IH2.
  destruct (wa_client (run_session es)) as [[i]|] eqn:E;
    destruct e; simpl in *; rewrite ?E; simpl; split; try done;
    intros H; by destruct (Hok H).
Qed.

(** C9: [GET /health] answers 200 with [{status: "ok", isReady}] and asks
    nothing of the platform; [isReady] tells whether the client object the
    server was given has emitted [ready]: false before the session reaches
    Ready, true from then on. *)
Theorem health_reports_ready (es : list SessionEvent) :
  let s := run_session es in
  (forall h,
     WebhookServer.get_health h =
       ({| WebhookServer.status := 200;
           WebhookServer.json :=
             WebhookServer.Health "ok" (not_null (info h)) |}, [])) /\
  match wa_client s with
  | Some h =>
      WebhookServer.get_health h =
        ({| WebhookServer.status := 200;
            WebhookServer.json := WebhookServer.Health "ok" (reached_ready es) |}, [])
  | None => reached_ready es = false
  end /\
  (isReady s = true -> reached_ready es = true).
Proof.
  intros s. destruct (track_spec es) as [H1 H2]. fold s in H1, H2.
  split_and!; [done| |done].
  unfold reached_ready. rewrite H1. by destruct (wa_client s).
Qed.

(** ** The control server *)




(** C8: on a request that passes validation, a [mediaUrl] makes the server
    fetch the resource and send it as the attachment with the message text
    as caption, the mimetype of the attachment being the one of the request
    when the request has one and the fetched one otherwise; without a
    [mediaUrl] the text itself is sent, with no caption. *)
Theorem send_message_media (P : WebhookServer.Platform) (req : WebhookServer.Body) :
  truthy (WebhookServer.chatId req) && truthy (WebhookServer.message req) = true ->
  let chat := default "" (WebhookServer.chatId req) in
  let text := default "" (WebhookServer.message req) in
  let url := default "" (WebhookServer.mediaUrl req) in
  let unsafeMime := not_null (WebhookServer.req_mimetype req) in
  (truthy (WebhookServer.mediaUrl req) = true ->
     forall m, WebhookServer.fromUrl P url unsafeMime = Ok m ->
     exists m',
       (WebhookServer.post_send_message P req).2 =
         [WebhookServer.Fetch url unsafeMime;
          WebhookServer.Send chat (WebhookServer.Attachment m') (Some text)] /\
       WebhookServer.data m' = WebhookServer.data m /\
       WebhookServer.filename m' = WebhookServer.filename m /\
       WebhookServer.mimetype m' =
         if truthy (WebhookServer.req_mimetype req)
         then default "" (WebhookServer.req_mimetype req)
         else WebhookServer.mimetype m) /\
  (truthy (WebhookServer.mediaUrl req) = false ->
     (WebhookServer.post_send_message P req).2 =
       [WebhookServer.Send chat (WebhookServer.Text text) None]).
Proof.
  intros H chat text url unsafeMime.
  unfold WebhookServer.post_send_message, WebhookServer.fetch_media.
  replace (negb _ || negb _) with false
    by (by destruct (truthy (WebhookServer.chatId req)),
                    (truthy (WebhookServer.message req))).
  split.
  - intros -> m Hm. fold url unsafeMime. rewrite Hm. fold chat text.
    eexists. split; [by destruct (WebhookServer.sendMessage _ _ _ _)|].
    by destruct (truthy (WebhookServer.req_mimetype req)).
  - intros ->. fold chat text. by destruct (WebhookServer.sendMessage _ _ _ _).
Qed.

Lemma send_message_media_witness :
  truthy (WebhookServer.chatId audio_request) &&
    truthy (WebhookServer.message audio_request) = true /\
  exists m',
    (WebhookServer.post_send_message obliging audio_request).2 =
      [WebhookServer.Fetch "https://example.com/audio.mp3" true;
       WebhookServer.Send "5585988123456@c.us" (WebhookServer.Attachment m')
         (Some "Confira este audio!")] /\
    WebhookServer.mimetype m' = "audio/mpeg".
Proof.
  split; [reflexivity|].
  destruct (send_message_media obliging audio_request eq_refl) as [H _].
  destruct (H eq_refl _ eq_refl) as (m' & Hc & _ & _ & Hm).
  exists m'. split; [exact Hc|exact Hm].
Defined.

(** ** The inbound relay *)

(** C10: with no orchestrator URL the forward step does nothing at all: no
    HTTP request, no log line, no error; so the listener posts nothing
    whatever the message, never raises, and logs no error when contact and
    chat resolve.  The one trace of the missing URL is the warning logged by
    the constructor. *)
Theorem forward_without_url (E : MessageHandlers.Env) (h : MessageHandlers.t)
    (msg : MessageHandlers.Msg) (p : MessageHandlers.Payload) :
  truthy (MessageHandlers.orchestratorUrl h) = false ->
  MessageHandlers.forwardToOrchestrator E h p = ([], Ok tt) /\
  (MessageHandlers.on_message E h msg).2 = Ok tt /\
  MessageHandlers.posts (MessageHandlers.on_message E h msg).1 = [] /\
  (forall c ch,
     MessageHandlers.getContact E msg = Ok c -> MessageHandlers.getChat E msg = Ok ch ->
     MessageHandlers.errors (MessageHandlers.on_message E h msg).1 = []) /\
  (MessageHandlers.constructor (MessageHandlers.orchestratorUrl h)).2 =
    [MessageHandlers.Console MessageHandlers.Warn "URL do orquestrador não definida"].
Proof.
  intros H.
  assert (forall q, MessageHandlers.forwardToOrchestrator E h q = ([], Ok tt)) as Hf.
  { intros q. unfold MessageHandlers.forwardToOrchestrator. by rewrite H. }
  unfold MessageHandlers.on_message, MessageHandlers.constructor. rewrite H.
  split_and!; [apply Hf| | | |done].
  - destruct (_ || _); [done|].
    destruct (MessageHandlers.getContact E msg), (MessageHandlers.getChat E msg);
      simpl; by rewrite ?Hf.
  - destruct (_ || _); [done|].
    destruct (MessageHandlers.getContact E msg), (MessageHandlers.getChat E msg);
      simpl; by rewrite ?Hf.
  - intros c ch -> ->. destruct (_ || _); [done|]. simpl. by rewrite Hf.
Qed.

Lemma forward_without_url_witness :
  truthy (MessageHandlers.orchestratorUrl (MessageHandlers.constructor None).1) = false /\
  MessageHandlers.posts
    (MessageHandlers.on_message calm (MessageHandlers.constructor None).1 inbound).1 = [] /\
  (MessageHandlers.on_message calm (MessageHandlers.constructor None).1 inbound).2 = Ok tt.
Proof.
  split; [reflexivity|].
  destruct (forward_without_url calm (MessageHandlers.constructor None).1 inbound
              (MessageHandlers.make_payload inbound
                 {| MessageHandlers.serialized := ""; MessageHandlers.name := None;
                    MessageHandlers.pushname := None; MessageHandlers.shortName := None;
                    MessageHandlers.isMe := false; MessageHandlers.isUser := false;
                    MessageHandlers.contact_isGroup := false |}
                 {| MessageHandlers.chat_isGroup := false |})
              eq_refl) as (_ & H2 & H3 & _).
  split; [exact H3|exact H2].
Defined.

(** ** Readiness and the drain *)




(** ** The bound on the attempts *)





(** ** [enqueue] *)




(** ** Order and spacing *)



(** ** The retry bound *)




(** * Further properties of the queue *)

(** ** The worker and its flag *)

(** X1: whatever happens, at most one invocation of [process()] is alive, and
    [isProcessing] is true exactly while one is; while it is, a call of
    [process()] returns at once and [enqueue] only appends. *)
Theorem one_worker_at_a_time (d : option Z) (es : list Event) :
  let w := run es (new_World d) in
  length (tasks w) <= 1 /\
  (isProcessing w = true <-> tasks w <> []) /\
  (isProcessing w = true ->
     process w = w /\
     forall m rnd, valid m = true ->
       (enqueue m rnd w).1 = push (new_item m rnd (now w)) w).
Proof.
  intros w. pose proof (run_inv es _ (new_World_inv d)) as I. fold w in I.
  destruct (inv_tasks _ I) as [[Ht Hp]|(c & Ht & Hp)]; rewrite Ht, Hp; simpl.
  - split_and!; [lia| |done]. by split.
  - split_and!; [lia|by split|]. intros _. split.
    + unfold process. by rewrite Hp.
    + intros m rnd V%valid_spec. unfold enqueue. rewrite V. simpl. by rewrite Hp.
Qed.

(** X2: a worker is started only from inside [enqueue] or [process]: with
    none running, no other event (a client set or removed, the session
    becoming ready or lost, [clear()], time passing, a stray completion)
    starts one, calls [sendMessage] or touches an item. *)
Theorem worker_starts_only_on_request (d : option Z) (es : list Event) (e : Event) :
  let w := run es (new_World d) in
  isProcessing w = false -> requests_drain e = false ->
  isProcessing (step e w) = false /\ tasks (step e w) = [] /\
  log (step e w) = log w /\ heap (step e w) = heap w.
Proof.
  intros w Hp He. pose proof (run_inv es _ (new_World_inv d)) as I. fold w in I.
  pose proof (idle_no_task w I Hp) as Ht.
  destruct e as [m rnd| | |b|k ok|k|dt|e]; simpl in *; try done; rewrite ?Ht; try done.
  by destruct (0 <=? dt)%Z.
Qed.

Lemma worker_starts_only_on_request_witness :
  isProcessing waiting = false /\ queue waiting = [0] /\
  isProcessing (step (Session (Ready "bot")) waiting) = false /\
  log (step (Session (Ready "bot")) waiting) = [].
Proof.
  split; [reflexivity|]. split; [reflexivity|].
  destruct (worker_starts_only_on_request None
              [SetClient true; Session Initialize; Enqueue greeting 1%N]
              (Session (Ready "bot")) eq_refl eq_refl) as (H1 & _ & H2 & _).
  split; [exact H1|exact H2].
Defined.

(** X3: whatever happens, no item is queued twice, and every queued item can
    still be attempted: it has no failed attempt yet, or fewer than its
    [maxAttempts]. *)
Theorem queued_items_pending (d : option Z) (es : list Event) :
  let w := run es (new_World d) in
  NoDup (queue w) /\
  forall r, r ∈ queue w ->
    exists it, heap w !! r = Some it /\
      (attempts it = 0 \/ 0 < attempts it < maxAttempts it)%Z.
Proof.
  intros w. pose proof (run_inv es _ (new_World_inv d)) as I. fold w in I.
  destruct (inv_sound _ I) as [Ha Hn Hq _]. split; [done|].
  intros r Hr. destruct (lookup_lt_is_Some_2 (heap w) r) as [it Hit]; [by apply Ha|].
  exists it. split; [done|]. by apply (Hq r).
Qed.

(** ** What [getStatus()] shows *)

Lemma shifted_refl w : shifted w w.
Proof. split; [by exists 0|done]. Qed.

Lemma shifted_trans w1 w2 w3 : shifted w1 w2 -> shifted w2 w3 -> shifted w1 w3.
Proof.
  intros [[i Hi] H1] [[j Hj] H2]. split; [|congruence].
  exists (i + j). by rewrite Hj, Hi, drop_drop.
Qed.

Lemma catch_block_shifted r w : shifted w (catch_block r w).1.
Proof.
  unfold catch_block. destruct (heap w !! r) as [it|]; [|apply shifted_refl].
  destruct (_ <=? _)%Z; simpl.
  - split; simpl; [exists 1; by destruct (queue w)|by rewrite length_insert].
  - split; simpl; [by exists 0|by rewrite length_insert].
Qed.

Lemma loop_shifted q w : shifted w (loop q w).1.
Proof.
  revert w. induction q as [|r q IH]; intros w; cbn [loop]; [by split; [exists 0|]|].
  destruct (heap w !! r); [|apply shifted_refl].
  destruct (queue_getClient w); [by split; [exists 0|]|].
  pose proof (catch_block_shifted r w) as Hc.
  destruct (catch_block r w) as [w1 [c|]]; simpl in *; [done|].
  by apply (shifted_trans w w1).
Qed.

Lemma spawn_shifted c w : shifted w (spawn c w).
Proof. destruct c; by split; [exists 0|]. Qed.

Lemma process_shifted w : shifted w (process w).
Proof.
  unfold process. destruct (_ || _); [apply shifted_refl|].
  pose proof (loop_shifted (queue w) (set_isProcessing true w)) as Hl.
  destruct (loop _ _) as [w1 c]. simpl in Hl.
  apply (shifted_trans w w1); [done|apply spawn_shifted].
Qed.

Lemma Window_shifted w w' : shifted w w' -> Window w -> Window w'.
Proof.
  intros [[j Hj] Hh] (k & Hk & Hq). rewrite Hq, drop_seq in Hj.
  destruct (decide (j <= length (heap w) - k)) as [Hle|Hgt].
  - exists (k + j). rewrite Hh, Hj. split; [lia|]. f_equal. lia.
  - exists (length (heap w')). rewrite Hj, Hh, Nat.sub_diag. split; [done|].
    replace (length (heap w) - k - j) with 0 by lia. done.
Qed.

Lemma Window_push it w : Window w -> Window (push it w).
Proof.
  intros (k & Hk & Hq). exists k. simpl. rewrite length_app. simpl. split; [lia|].
  rewrite Hq. replace (length (heap w) + 1 - k) with (S (length (heap w) - k)) by lia.
  rewrite seq_S. do 2 f_equal. lia.
Qed.

Lemma step_window e w : Window w -> Window (step e w).
Proof.
  intros W. destruct e as [m rnd| | |b|k ok|k|dt|e]; simpl; try done.
  - unfold enqueue. destruct (_ || _); [done|]. simpl.
    pose proof (Window_push (new_item m rnd (now w)) w W) as W1.
    destruct (isProcessing w); [done|].
    apply (Window_shifted (push (new_item m rnd (now w)) w));
      [apply process_shifted|done].
  - apply (Window_shifted w); [apply process_shifted|done].
  - exists (length (heap w)). simpl. by rewrite Nat.sub_diag.
  - destruct (tasks w !! k) as [[r|d]|]; try done.
    set (w0 := set_tasks _ w).
    assert (shifted w (resume_send r ok w0).1) as Hs.
    { unfold resume_send. destruct ok; simpl.
      - split; [exists 1; by destruct (queue w)|done].
      - pose proof (catch_block_shifted r w0) as Hc.
        destruct (catch_block r w0) as [w1 [c|]]; simpl in *; [done|].
        apply (shifted_trans w w1); [done|apply loop_shifted]. }
    destruct (resume_send r ok w0) as [w1 c]. simpl in Hs.
    apply (Window_shifted w); [|done].
    apply (shifted_trans w w1); [done|apply spawn_shifted].
  - destruct (tasks w !! k) as [[r|d]|]; try done.
    destruct (_ <=? _)%Z; [|done]. unfold resume_delay.
    pose proof (loop_shifted (queue w) (set_tasks (delete k (tasks w)) w)) as Hs.
    destruct (loop _ _) as [w1 c]. simpl in Hs.
    apply (Window_shifted w); [|done].
    apply (shifted_trans w w1); [done|apply spawn_shifted].
  - by destruct (_ <=? _)%Z.
Qed.

Lemma run_window es w : Window w -> Window (run es w).
Proof.
  revert w. induction es as [|e es IH]; intros w W; [done|].
  simpl. by apply IH, step_window.
Qed.

Lemma new_World_window d : Window (new_World d).
Proof. by exists 0. Qed.

Lemma omap_seq {A B} (f : A -> B) (h : list A) n : forall k,
  k + n <= length h ->
  omap (fun r => f <$> h !! r) (seq k n) = f <$> take n (drop k h).
Proof.
  induction n as [|n IH]; intros k Hk; [done|].
  destruct (lookup_lt_is_Some_2 h k) as [x Hx]; [lia|].
  simpl. rewrite Hx. simpl.
  rewrite (drop_S _ _ _ Hx). simpl. f_equal. apply IH. lia.
Qed.

(** X4: whatever happens, [getStatus()] lists exactly the [queueLength] most
    recently accepted messages, oldest first, each with its id, destination,
    attempt count and time of arrival; and its [isProcessing] tells whether
    a worker is alive. *)
Theorem status_lists_waiting (d : option Z) (es : list Event) :
  let w := run es (new_World d) in
  let st := getStatus w in
  length (st_queue st) = queueLength st /\
  queueLength st <= length (heap w) /\
  st_queue st = summary <$> drop (length (heap w) - queueLength st) (heap w) /\
  (st_isProcessing st = true <-> tasks w <> []).
Proof.
  intros w st.
  destruct (run_window es _ (new_World_window d)) as (k & Hk & Hq). fold w in Hk, Hq.
  pose proof (run_inv es _ (new_World_inv d)) as I. fold w in I.
  assert (st_queue st = summary <$> drop k (heap w)) as Hst.
  { unfold st, getStatus. simpl. rewrite Hq, omap_seq by lia.
    f_equal. apply take_ge. rewrite length_drop. lia. }
  assert (queueLength st = length (heap w) - k) as Hn.
  { unfold st, getStatus. simpl. by rewrite Hq, length_seq. }
  split_and!.
  - rewrite Hst, length_fmap, length_drop. lia.
  - lia.
  - rewrite Hst, Hn. do 2 f_equal. lia.
  - unfold st, getStatus. simpl.
    destruct (inv_tasks _ I) as [[-> ->]|(c & -> & ->)]; by split.
Qed.

(** ** Items once created *)

Lemma grown_refl h : grown h h.
Proof. intros r it Hit. exists it. split_and!; [done..|lia]. Qed.

Lemma grown_trans h1 h2 h3 : grown h1 h2 -> grown h2 h3 -> grown h1 h3.
Proof.
  intros H1 H2 r it Hit. destruct (H1 r it Hit) as (it1 & Hit1 & Hs1 & Ha1).
  destruct (H2 r it1 Hit1) as (it2 & Hit2 & Hs2 & Ha2).
  exists it2. split_and!; [done|congruence|lia].
Qed.

Lemma grown_bump h r it : h !! r = Some it -> grown h (<[r:=bump it]> h).
Proof.
  intros Hit r' it' Hit'. destruct (decide (r = r')) as [<-|Hne].
  - exists (bump it). rewrite list_lookup_insert_eq by (by eapply lookup_lt_Some).
    assert (it' = it) as -> by congruence. split_and!; [done..|simpl; lia].
  - exists it'. rewrite list_lookup_insert_ne by done. split_and!; [done..|lia].
Qed.

Lemma catch_block_grown r w : grown (heap w) (heap (catch_block r w).1).
Proof.
  unfold catch_block. destruct (heap w !! r) as [it|] eqn:Hit; [|apply grown_refl].
  destruct (_ <=? _)%Z; simpl; by apply grown_bump.
Qed.

Lemma loop_grown q w : grown (heap w) (heap (loop q w).1).
Proof.
  revert w. induction q as [|r q IH]; intros w; cbn [loop]; [apply grown_refl|].
  destruct (heap w !! r); [|apply grown_refl].
  destruct (queue_getClient w); [apply grown_refl|].
  pose proof (catch_block_grown r w) as Hc.
  destruct (catch_block r w) as [w1 [c|]]; simpl in *; [done|].
  by apply (grown_trans _ (heap w1)).
Qed.

Lemma process_grown w : grown (heap w) (heap (process w)).
Proof.
  unfold process. destruct (_ || _); [apply grown_refl|].
  pose proof (loop_grown (queue w) (set_isProcessing true w)) as Hl.
  destruct (loop _ _) as [w1 c]. by rewrite spawn_heap.
Qed.

Lemma step_grown e w : grown (heap w) (heap (step e w)).
Proof.
  destruct e as [m rnd| | |b|k ok|k|dt|e]; simpl; try apply grown_refl.
  - unfold enqueue. destruct (_ || _); [apply grown_refl|]. simpl.
    assert (grown (heap w) (heap (push (new_item m rnd (now w)) w))) as Hp.
    { intros r it Hit. exists it. simpl. split_and!; [|done|lia].
      by apply lookup_app_l_Some. }
    destruct (isProcessing w); [done|].
    eapply grown_trans; [exact Hp|apply process_grown].
  - apply process_grown.
  - destruct (tasks w !! k) as [[r|d]|]; try apply grown_refl.
    unfold resume_send. destruct ok; simpl; [apply grown_refl|].
    pose proof (catch_block_grown r (set_tasks (delete k (tasks w)) w)) as Hc.
    destruct (catch_block _ _) as [w1 [c|]]; simpl in *; [done|].
    pose proof (loop_grown (queue w1) w1) as Hl.
    destruct (loop _ _) as [w2 c]. simpl in *. rewrite spawn_heap.
    by apply (grown_trans _ (heap w1)).
  - destruct (tasks w !! k) as [[r|d]|]; try apply grown_refl.
    destruct (_ <=? _)%Z; [|apply grown_refl]. unfold resume_delay.
    pose proof (loop_grown (queue w) (set_tasks (delete k (tasks w)) w)) as Hl.
    destruct (loop _ _) as [w2 c]. simpl in *. by rewrite spawn_heap.
  - destruct (_ <=? _)%Z; apply grown_refl.
Qed.

Lemma run_grown es w : grown (heap w) (heap (run es w)).
Proof.
  revert w. induction es as [|e es IH]; intros w; [apply grown_refl|].
  simpl. eapply grown_trans; [apply step_grown|apply IH].
Qed.

(** X5: an item object, once created, is never dropped from the store or
    replaced, and nothing ever changes its id, destination, content, metadata,
    time of arrival or [maxAttempts]; its [attempts] counter never goes
    down. *)
Theorem items_change_only_in_attempts (es : list Event) (w : World) (r : nat) (it : Item) :
  heap w !! r = Some it ->
  exists it', heap (run es w) !! r = Some it' /\
    item_id it' = item_id it /\ to it' = to it /\ content it' = content it /\
    metadata it' = metadata it /\ timestamp it' = timestamp it /\
    maxAttempts it' = maxAttempts it /\ (attempts it <= attempts it')%Z.
Proof.
  intros Hit. destruct (run_grown es w r it Hit) as (it' & Hit' & Hs & Ha).
  exists it'. unfold static in Hs. injection Hs as ? ? ? ? ? ?. by split_and!.
Qed.

Lemma items_change_only_in_attempts_witness :
  heap first_send_pending !! 0 = Some (new_item greeting 1%N 0) /\
  exists it',
    heap (run [Settle 0 false] first_send_pending) !! 0 = Some it' /\
    item_id it' = {| id_time := 0; id_random := 1%N |} /\ to it' = "5585988123456" /\
    maxAttempts it' = 3%Z /\ (0 <= attempts it')%Z.
Proof.
  split; [reflexivity|].
  destruct (items_change_only_in_attempts [Settle 0 false] first_send_pending 0
              (new_item greeting 1%N 0) eq_refl)
    as (it' & H1 & H2 & H3 & _ & _ & _ & H7 & H8).
  exists it'. split_and!; [exact H1|exact H2|exact H3|exact H7|exact H8].
Defined.

(** ** Timing *)






Lemma spawn_log c w : log (spawn c w) = log w.
Proof. by destruct c. Qed.





(** ** With a client at hand: the fate of each item *)

(** X8: while the queue keeps its client and is not cleared, every item gets
    one callback and one only: none while it is queued, and once it has left
    the queue either [onMessageSent] once or [onMessageFailed] once, never
    both; nothing is ever called for an item that was not enqueued. *)
Theorem one_callback_per_item (d : option Z) (es : list Event) (r : nat) :
  Forall normal es ->
  let w := run es (attached d) in
  let s := count (is_sent r) (log w) in
  let f := count (is_failed r) (log w) in
  (length (heap w) <= r -> s = 0%Z /\ f = 0%Z /\ count (is_send r) (log w) = 0%Z) /\
  (r ∈ queue w -> s = 0%Z /\ f = 0%Z) /\
  (r < length (heap w) -> (r ∉ queue w) -> (s = 1 /\ f = 0 \/ s = 0 /\ f = 1)%Z).
Proof.
  intros Hn w s f.
  assert (Attached w) as A by (apply run_attached; [done|apply attached_Attached]).
  destruct A as [[S _ _ F Ac] _ _]. split_and!.
  - intros Hr. destruct (F r Hr) as (? & ? & ?). done.
  - intros Hin. destruct (lookup_lt_is_Some_2 (heap w) r) as [it Hit].
    { by apply (sound_alloc _ S). }
    destruct (Ac r it Hit) as [(? & ? & _) _]; done.
  - intros Hlt Hnin. destruct (lookup_lt_is_Some_2 (heap w) r) as [it Hit]; [done|].
    destruct (Ac r it Hit) as [_ [[? ?]|(? & ? & _)]]; [done|by left|by right].
Qed.

Lemma one_callback_per_item_witness :
  Forall normal three_failures /\
  count (is_sent 0) (log (run three_failures (attached None))) = 0%Z /\
  count (is_failed 0) (log (run three_failures (attached None))) = 1%Z.
Proof.
  assert (Forall normal three_failures) as Hn by (repeat constructor).
  split; [exact Hn|].
  destruct (one_callback_per_item None three_failures 0 Hn) as (_ & _ & H).
  destruct H as [[H1 H2]|[H1 H2]].
  - vm_compute. lia.
  - vm_compute. intros H. inversion H.
  - exfalso. vm_compute in H1. discriminate H1.
  - split; [exact H1|exact H2].
Defined.

Lemma moves_one w w' : move w w' -> moves w w'.
Proof. intros H. exists w. split; [by apply move_none|done]. Qed.

Lemma moves_none w w' :
  queue w' = queue w -> heap w' = heap w -> log w' = log w -> moves w w'.
Proof. intros. by apply moves_one, move_none. Qed.

Lemma move_from v0 v v' :
  queue v0 = queue v -> heap v0 = heap v -> log v0 = log v ->
  move v v' -> move v0 v'.
Proof.
  intros Hq Hh Hl [|r it t|it|r it t ms|r it t ms|r it t].
  - apply move_none; congruence.
  - apply (move_call _ _ r it t); congruence.
  - apply (move_push _ _ it); congruence.
  - apply (move_sent _ _ r it t ms); congruence.
  - apply (move_retry _ _ r it t ms); congruence.
  - apply (move_failed _ _ r it t); congruence.
Qed.

(** At the loop test, with a client object at hand. *)
Lemma dispatch_move W w' c :
  Sound W -> client W = true -> is_Some (wa_client (session W)) ->
  loop (queue W) W = (w', c) -> move W (spawn c w').
Proof.
  intros S Hc Hh. rewrite loop_attached by done.
  destruct (queue W) as [|r q] eqn:Hq.
  - intros [= <- <-]. by apply move_none.
  - destruct (lookup_lt_is_Some_2 (heap W) r) as [it Hit].
    { apply (sound_alloc _ S). rewrite Hq. left. }
    rewrite Hit. intros [= <- <-].
    apply (move_call _ _ r it (now W)); [by rewrite Hq|done..].
Qed.

Lemma process_move w : Attached w -> move w (process w).
Proof.
  intros A. unfold process. destruct (_ || _); [by apply move_none|].
  destruct (loop _ _) as [w1 c] eqn:Hl.
  apply (dispatch_move (set_isProcessing true w)) in Hl; try apply A.
  - by apply (move_from w (set_isProcessing true w)).
  - apply (Sound_ext w); [done..|apply A].
Qed.

(** Every segment of a queue that keeps its client is made of such moves. *)
Lemma step_moves e w : normal e -> Attached w -> moves w (step e w).
Proof.
  intros N A. destruct e as [m rnd| | |b|k ok|k|dt|e]; simpl; try done;
    try (by apply moves_none).
  - unfold enqueue. destruct (_ || _); [by apply moves_none|]. simpl.
    set (it := new_item m rnd (now w)).
    assert (move w (push it w)) as Hp by (by apply (move_push _ _ it)).
    destruct (isProcessing w); [by apply moves_one|].
    exists (push it w). split; [done|]. apply process_move. by apply push_attached.
  - by apply moves_one, process_move.
  - destruct (tasks w !! k) as [[r|d]|] eqn:Hk; try (by apply moves_none).
    destruct (task_is_only _ _ _ (att_inv _ A) Hk) as (-> & Ht & Hp).
    destruct (attached_queue w r A Ht) as (q & it & Hq & Hnin & Hit & Hre).
    unfold resume_send. destruct ok.
    + apply moves_one. simpl.
      apply (move_sent _ _ r it (now w) (rateLimitDelay w)); simpl;
        [by rewrite Hq|done..].
    + rewrite (catch_block_eq r _ it) by done.
      destruct (maxAttempts it <=? attempts it + 1)%Z eqn:Hmax.
      * set (w2 := set_queue _ _).
        assert (move w w2) as Hm
          by (apply (move_failed _ _ r it (now w)); [by rewrite Hq|done..]).
        exists w2. split; [done|].
        destruct (loop (queue w2) w2) as [w3 c] eqn:Hl.
        apply (dispatch_move w2) in Hl; [done| |apply A|apply A].
        pose proof (catch_block_sound r (set_tasks (delete 0 (tasks w)) w)) as Hs.
        rewrite (catch_block_eq r _ it) in Hs by done. rewrite Hmax in Hs.
        edestruct Hs as (S2 & _); [|done..| |done|done].
        -- apply (Sound_ext w); [done..|apply A].
        -- simpl. rewrite Hq. by intros _.
      * apply moves_one. simpl.
        apply (move_retry _ _ r it (now w) (rateLimitDelay w * (attempts it + 1)));
          [by rewrite Hq|done..].
  - destruct (tasks w !! k) as [[r|d]|] eqn:Hk; try (by apply moves_none).
    destruct (d <=? now w)%Z; [|by apply moves_none].
    unfold resume_delay. destruct (loop _ _) as [w1 c] eqn:Hl.
    apply moves_one.
    apply (dispatch_move (set_tasks (delete k (tasks w)) w)) in Hl; try apply A.
    + by apply (move_from w (set_tasks (delete k (tasks w)) w)).
    + apply (Sound_ext w); [done..|apply A].
  - destruct (_ <=? _)%Z; by apply moves_none.
Qed.

Lemma outcomes_app l1 l2 : outcomes (l1 ++ l2) = outcomes l1 ++ outcomes l2.
Proof.
  induction l1 as [|[t a] l1 IH]; [done|]. simpl. destruct a; simpl; by rewrite ?IH.
Qed.

Lemma outcomes_reverse l : outcomes (reverse l) = reverse (outcomes l).
Proof.
  induction l as [|[t a] l IH]; [done|].
  rewrite reverse_cons, outcomes_app, IH.
  destruct a; simpl; rewrite ?app_nil_r; try done; by rewrite reverse_cons.
Qed.

Lemma head_seq_lt k n r : head (seq k n) = Some r -> r = k /\ 0 < n.
Proof. destruct n; [done|]. simpl. intros [= <-]. split; [done|lia]. Qed.

Lemma move_ordered v v' : move v v' -> Ordered v -> Ordered v'.
Proof.
  intros M (k & Hk & Hq & Ho).
  destruct M as [Hq' Hh' Hl'|r it t Hd Hit Hq' Hh' Hl'|it H0 Hq' Hh' Hl'
                 |r it t ms Hd Hit Hq' Hh' Hl'|r it t ms Hd Hit Hq' Hh' Hl'
                 |r it t Hd Hit Hq' Hh' Hl'].
  - exists k. by rewrite Hq', Hh', Hl'.
  - exists k. rewrite Hq', Hh', Hl'. done.
  - exists k. rewrite Hq', Hh', Hl', length_app. simpl. split_and!; [lia| |done].
    rewrite Hq. replace (length (heap v) + 1 - k) with (S (length (heap v) - k)) by lia.
    rewrite seq_S. do 2 f_equal. lia.
  - rewrite Hq in Hd. apply head_seq_lt in Hd as [-> Hn].
    exists (S k). rewrite Hq', Hh', Hl', Hq. split_and!; [lia| |].
    + destruct (length (heap v) - k) as [|n] eqn:E; [lia|]. simpl. f_equal. lia.
    + cbn [outcomes]. by rewrite reverse_cons, Ho, seq_S.
  - exists k. rewrite Hq', Hh', Hl', length_insert. done.
  - rewrite Hq in Hd. apply head_seq_lt in Hd as [-> Hn].
    exists (S k). rewrite Hq', Hh', Hl', Hq, length_insert. split_and!; [lia| |].
    + destruct (length (heap v) - k) as [|n] eqn:E; [lia|]. simpl. f_equal. lia.
    + cbn [outcomes]. by rewrite reverse_cons, Ho, seq_S.
Qed.

Lemma run_ordered es w :
  Forall normal es -> Attached w -> Ordered w -> Ordered (run es w).
Proof.
  intros H. revert w. induction H as [|e es He _ IH]; intros w A O; [done|].
  simpl. apply IH; [by apply step_attached|].
  destruct (step_moves e w He A) as (v & M1 & M2).
  by apply (move_ordered v), (move_ordered w v).
Qed.

Lemma attached_ordered d : Ordered (attached d).
Proof. exists 0. by split_and!. Qed.

(** X9: while the queue keeps its client and is not cleared, items leave the
    queue in the order of their arrival even when sends fail and are retried:
    the callbacks ([onMessageSent] or [onMessageFailed]) were invoked for
    the first [k] accepted messages, one each, in that order, and the queue
    holds the others, in that order. *)
Theorem outcomes_in_arrival_order (d : option Z) (es : list Event) :
  Forall normal es ->
  let w := run es (attached d) in
  let k := length (heap w) - length (queue w) in
  outcomes (history w) = seq 0 k /\
  queue w = seq k (length (queue w)) /\
  omap (fun r => wire <$> heap w !! r) (outcomes (history w)) =
    take k (addressed <$> accepted es).
Proof.
  intros Hn w k.
  destruct (run_ordered es _ Hn (attached_Attached d) (attached_ordered d))
    as (k' & Hk & Hq & Ho). fold w in Hk, Hq, Ho.
  assert (k = k') as ->.
  { unfold k. rewrite Hq, length_seq. lia. }
  assert (outcomes (history w) = seq 0 k') as Hout.
  { unfold history. by rewrite outcomes_reverse. }
  split_and!; [done| |].
  - rewrite Hq at 1. f_equal. rewrite Hq, length_seq. done.
  - rewrite Hout, omap_seq by lia. rewrite drop_0, fmap_take.
    subst w. rewrite run_wire. done.
Qed.

Lemma outcomes_in_arrival_order_witness :
  Forall normal (first_sent ++ second_arrives) /\
  outcomes (history (run (first_sent ++ second_arrives) (attached None))) = [0] /\
  queue (run (first_sent ++ second_arrives) (attached None)) = [1].
Proof.
  assert (Forall normal (first_sent ++ second_arrives)) as Hn by (repeat constructor).
  split; [exact Hn|].
  destruct (outcomes_in_arrival_order None (first_sent ++ second_arrives) Hn)
    as (H1 & H2 & _).
  split; [exact H1|exact H2].
Defined.

Lemma head_elem_of {A} (l : list A) x : head l = Some x -> x ∈ l.
Proof. destruct l; [done|]. intros [= ->]. left. Qed.

Lemma move_finished r v v' :
  move v v' -> finished r v -> finished r v' /\ untouched r v v'.
Proof.
  intros M [Hlt Hnin]. unfold finished, untouched, entries.
  destruct M as [Hq' Hh' Hl'|r0 it t Hd Hit Hq' Hh' Hl'|it H0 Hq' Hh' Hl'
                 |r0 it t ms Hd Hit Hq' Hh' Hl'|r0 it t ms Hd Hit Hq' Hh' Hl'
                 |r0 it t Hd Hit Hq' Hh' Hl'];
    rewrite Hq', Hh', Hl'; try (apply head_elem_of in Hd);
    try (assert (r0 <> r) as Hne by (by intros ->)); simpl;
    rewrite ?bool_decide_eq_false_2 by done; rewrite ?length_insert.
  - done.
  - done.
  - rewrite length_app. simpl. split_and!; [lia| |by apply lookup_app_l|done].
    intros [?| ->%list_elem_of_singleton]%elem_of_app; [done|lia].
  - split_and!; [done| |done..]. by intros ?%elem_of_tail.
  - split_and!; [done..| |done]. by apply list_lookup_insert_ne.
  - split_and!; [done| |by apply list_lookup_insert_ne|done]. by intros ?%elem_of_tail.
Qed.

Lemma untouched_trans r w1 w2 w3 :
  untouched r w1 w2 -> untouched r w2 w3 -> untouched r w1 w3.
Proof. intros [? ?] [? ?]. split; congruence. Qed.

Lemma run_finished es w r :
  Forall normal es -> Attached w -> finished r w ->
  finished r (run es w) /\ untouched r w (run es w).
Proof.
  intros H. revert w. induction H as [|e es He _ IH]; intros w A F; [done|].
  simpl. destruct (step_moves e w He A) as (v & M1 & M2).
  destruct (move_finished r w v M1 F) as [F1 U1].
  destruct (move_finished r v _ M2 F1) as [F2 U2].
  destruct (IH (step e w)) as [F3 U3]; [by apply step_attached|done|].
  split; [done|]. eapply untouched_trans; [|exact U3]. by eapply untouched_trans.
Qed.

(** X10: while the queue keeps its client and is not cleared, an item that
    has left the queue, sent or given up, is done with for good: it never
    comes back into the queue, [sendMessage] is never called for it again, no
    further callback is invoked for it, and the item object stays as it is. *)
Theorem finished_items_are_final (d : option Z) (es es' : list Event) (r : nat) :
  Forall normal es -> Forall normal es' ->
  let w := run es (attached d) in
  let w' := run es' w in
  r < length (heap w) -> (r ∉ queue w) ->
  (r ∉ queue w') /\ heap w' !! r = heap w !! r /\
  entries r (log w') = entries r (log w).
Proof.
  intros Hn Hn' w w' Hlt Hnin.
  assert (Attached w) as A by (apply run_attached; [done|apply attached_Attached]).
  destruct (run_finished es' w r Hn' A) as [[_ F] [U1 U2]]; [done|]. done.
Qed.

Lemma finished_items_are_final_witness :
  Forall normal first_sent /\ Forall normal second_arrives /\
  entries 0 (log (run second_arrives (run first_sent (attached None)))) =
    [(0%Z, Sent 0); (0%Z, CallSend 0 "5585988123456@c.us" "oi")] /\
  heap (run second_arrives (run first_sent (attached None))) !! 0 =
    Some (new_item greeting 1%N 0).
Proof.
  assert (Forall normal first_sent) as H1 by (repeat constructor).
  assert (Forall normal second_arrives) as H2 by (repeat constructor).
  split; [exact H1|]. split; [exact H2|].
  destruct (finished_items_are_final None first_sent second_arrives 0 H1 H2)
    as (_ & Hh & He).
  - vm_compute. lia.
  - vm_compute. intros H. inversion H.
  - split; [exact He|exact Hh].
Defined.

(** X11: giving an item up does not hold the queue.  When the last allowed
    attempt of the head item fails and another item waits behind it, the
    worker invokes [onMessageFailed], removes the item and calls
    [sendMessage] for the next one at once, within the same turn and without
    any delay. *)
Theorem give_up_does_not_delay_next (d : option Z) (es : list Event)
    (r r' : nat) (q : list nat) (it : Item) :
  Forall normal es ->
  let w := run es (attached d) in
  tasks w = [AwaitSend r] -> queue w = r :: r' :: q -> heap w !! r = Some it ->
  (maxAttempts it <= attempts it + 1)%Z ->
  let w' := step (Settle 0 false) w in
  exists it', heap w !! r' = Some it' /\
    log w' = (now w, CallSend r' (to it' +:+ "@c.us") (content it')) ::
             (now w, Failed r) :: log w /\
    queue w' = r' :: q /\ tasks w' = [AwaitSend r'] /\ now w' = now w.
Proof.
  intros Hn w Ht Hq Hit Hge w'.
  assert (Attached w) as A by (apply run_attached; [done|apply attached_Attached]).
  pose proof (core_sound _ (att_core _ A)) as S.
  destruct (core_handle _ (att_core _ A)) as [h Hh].
  pose proof (core_client _ (att_core _ A)) as Hc.
  destruct (lookup_lt_is_Some_2 (heap w) r') as [it' Hit'].
  { apply (sound_alloc _ S). rewrite Hq. right. left. }
  assert (r <> r') as Hne.
  { pose proof (sound_nodup _ S) as ND. rewrite Hq in ND.
    apply NoDup_cons in ND as [Hnin _]. intros ->. apply Hnin. left. }
  exists it'. split; [done|].
  subst w'. rewrite (settle_give_up w r it) by done. cbn zeta.
  set (w1 := set_queue _ _).
  rewrite (loop_head w1 r' q it' h); [| | |done..].
  - subst w1. simpl. by rewrite Hq.
  - subst w1. simpl. by rewrite Hq.
  - subst w1. simpl. by rewrite list_lookup_insert_ne.
Qed.

Lemma give_up_does_not_delay_next_witness :
  Forall normal one_shot_then_farewell /\
  log (step (Settle 0 false) (run one_shot_then_farewell (attached None))) =
    [(0%Z, CallSend 1 "5585988654321@c.us" "tchau"); (0%Z, Failed 0);
     (0%Z, CallSend 0 "5585988123456@c.us" "oi")].
Proof.
  assert (Forall normal one_shot_then_farewell) as Hn by (repeat constructor).
  split; [exact Hn|].
  destruct (give_up_does_not_delay_next None one_shot_then_farewell 0 1 []
              (new_item (once greeting 1) 1%N 0) Hn eq_refl eq_refl eq_refl)
    as (it' & Hit' & Hl & _).
  - simpl. lia.
  - vm_compute in Hit'. injection Hit' as <-. exact Hl.
Defined.

(** ** Every accepted message gets sent *)

Lemma delivered_app l1 l2 : delivered (l1 ++ l2) = delivered l1 ++ delivered l2.
Proof.
  induction l1 as [|[t a] l1 IH]; [done|]. simpl. destruct a; simpl; by rewrite ?IH.
Qed.

Lemma delivered_reverse l : delivered (reverse l) = reverse (delivered l).
Proof.
  induction l as [|[t a] l IH]; [done|].
  rewrite reverse_cons, delivered_app, IH.
  destruct a; simpl; rewrite ?app_nil_r; try done. by rewrite reverse_cons.
Qed.

Lemma pauses_S n D : pauses (S n) D = pause D ++ pauses n D.
Proof. done. Qed.

(** With [S n] items queued and the send of the first in flight, [S n]
    successful sends, each followed by the delay, empty the queue. *)
Lemma drain_all D n : forall w r,
  Attached w -> tasks w = [AwaitSend r] -> length (queue w) = S n ->
  rateLimitDelay w = D ->
  let w' := run (pauses (S n) D) w in
  queue w' = [] /\ tasks w' = [] /\ isProcessing w' = false /\
  delivered (log w') = reverse (queue w) ++ delivered (log w) /\
  now w' = (now w + Z.of_nat (S n) * Z.max 0 D)%Z.
Proof.
  induction n as [|n IH]; intros w r A Ht Hlen Hr w';
    destruct (attached_queue w r A Ht) as (q & it & Hq & _);
    destruct (pause_step w r D A Ht Hr) as (A1 & Hq1 & Hh1 & Hr1 & Hn1 & Hk);
    subst w'; rewrite pauses_S, run_app;
    set (w1 := run (pause D) w) in *; rewrite Hq in *; simpl in Hq1, Hk, Hlen.
  - destruct q; [|done]. destruct Hk as (Ht1 & Hp1 & Hl1). cbn [pauses run foldl].
    split_and!; try done; [by rewrite Hl1|].
    rewrite Hn1. change (Z.of_nat 1) with 1%Z. lia.
  - destruct q as [|r' q]; [done|]. destruct Hk as (Ht1 & it' & _ & Hl1).
    destruct (IH w1 r' A1 Ht1) as (H1 & H2 & H3 & H4 & H5);
      [rewrite Hq1; simpl in *; lia|done|].
    split_and!; try done.
    + rewrite H4, Hq1, Hl1. simpl. rewrite !reverse_cons, <- !app_assoc. done.
    + rewrite H5, Hn1. nia.
Qed.

Lemma accepted_app es1 es2 : accepted (es1 ++ es2) = accepted es1 ++ accepted es2.
Proof.
  induction es1 as [|e es1 IH]; [done|]. simpl.
  destruct e; try done. destruct (valid m); simpl; by rewrite IH.
Qed.

Lemma accepted_pauses n D : accepted (pauses n D) = [].
Proof. induction n as [|n IH]; [done|]. simpl. exact IH. Qed.

Lemma accepted_enqueue_all ms :
  Forall accepts ms -> accepted (enqueue_all ms) = (fun p => request p.1) <$> ms.
Proof.
  induction 1 as [|[m rnd] ms V _ IH]; [done|]. unfold accepts in V. simpl in *.
  by rewrite V, IH.
Qed.

Lemma smooth_pauses n D : Forall smooth (pauses n D).
Proof. induction n as [|n IH]; [done|]. simpl. by repeat constructor. Qed.

Lemma smooth_enqueue_all ms : Forall smooth (enqueue_all ms).
Proof. induction ms as [|[m rnd] ms IH]; [done|]. by constructor. Qed.

(** Once the queue of a run without failures is empty and the worker gone,
    the calls made are exactly the accepted messages, in order. *)
Lemma fifo_drained es w0 :
  Forall smooth es -> Attached w0 -> Fifo w0 -> heap w0 = [] ->
  queue (run es w0) = [] -> tasks (run es w0) = [] ->
  dispatched (history (run es w0)) = addressed <$> accepted es.
Proof.
  intros Hs A F Hh Hq Ht.
  destruct (run_fifo es w0 Hs A F) as (k & Hk & Hqk & Hdk).
  assert (k = length (heap (run es w0))) as ->.
  { rewrite Hq in Hqk. symmetry in Hqk. apply (f_equal length) in Hqk.
    rewrite length_seq in Hqk. simpl in Hqk. lia. }
  unfold history. rewrite dispatched_reverse.
  rewrite Ht in Hdk. simpl in Hdk. rewrite Nat.add_0_r in Hdk.
  rewrite Hdk, take_ge by (by rewrite length_fmap).
  by rewrite run_wire, Hh.
Qed.

Lemma enqueue_busy m rnd w :
  isProcessing w = true -> valid m = true ->
  step (Enqueue m rnd) w = push (new_item m rnd (now w)) w.
Proof.
  intros Hp V%valid_spec. simpl. unfold enqueue. rewrite V. simpl. by rewrite Hp.
Qed.

Lemma enqueue_all_busy ms : forall w,
  isProcessing w = true -> Forall accepts ms ->
  let w' := run (enqueue_all ms) w in
  queue w' = queue w ++ seq (length (heap w)) (length ms) /\
  tasks w' = tasks w /\ log w' = log w /\ now w' = now w.
Proof.
  induction ms as [|[m rnd] ms IH]; intros w Hp Hv; simpl.
  { by rewrite app_nil_r. }
  apply Forall_cons in Hv as [V Hv]. unfold accepts in V. simpl in V.
  change (fst (enqueue m rnd w)) with (step (Enqueue m rnd) w).
  rewrite enqueue_busy by done.
  destruct (IH (push (new_item m rnd (now w)) w)) as (Hq & Ht & Hl & Hn); [done..|].
  simpl in *. rewrite length_app in Hq. simpl in Hq.
  split_and!; try done. rewrite Hq, <- app_assoc. do 3 f_equal. lia.
Qed.

Lemma first_enqueue d ci m rnd :
  valid m = true ->
  let w := step (Enqueue m rnd) (ready d ci) in
  tasks w = [AwaitSend 0] /\ queue w = [0] /\ isProcessing w = true /\
  length (heap w) = 1 /\ now w = 0%Z /\
  log w = [(0%Z, CallSend 0 (addressed (request m)).1 (addressed (request m)).2)].
Proof.
  intros V%valid_spec. simpl. unfold enqueue. rewrite V. cbn. done.
Qed.

(** X12: nothing is lost on a ready session.  Any number of messages
    enqueued at once are all sent when every send succeeds: after as many
    rounds of completion and delay as there are messages the queue is empty
    and the worker has stopped, [sendMessage] was called once for each
    message, in the order of arrival, with its destination suffixed by
    [@c.us] and its content, and [onMessageSent] was invoked for each, in
    that order, and no other callback. *)
Theorem every_message_is_sent (d : option Z) (ci : ClientInfo)
    (ms : list (Message * Rand)) :
  Forall accepts ms ->
  let D := orZ d 8000 in
  let w := run (enqueue_all ms ++ pauses (length ms) D) (ready d ci) in
  (queue w = [] /\ tasks w = [] /\ isProcessing w = false) /\
  dispatched (history w) = (fun p => addressed (request p.1)) <$> ms /\
  delivered (history w) = seq 0 (length ms) /\
  outcomes (history w) = seq 0 (length ms) /\
  now w = (Z.of_nat (length ms) * Z.max 0 D)%Z.
Proof.
  intros Hv D w.
  set (es := enqueue_all ms ++ pauses (length ms) D) in *.
  assert (Forall smooth es) as Hs.
  { apply Forall_app. split; [apply smooth_enqueue_all|apply smooth_pauses]. }
  assert (Forall normal es) as Hn by (eapply Forall_impl; [exact Hs|apply smooth_normal]).
  assert (accepted es = (fun p => request p.1) <$> ms) as Hacc.
  { unfold es. by rewrite accepted_app, accepted_pauses, app_nil_r, accepted_enqueue_all. }
  assert (queue w = [] /\ tasks w = [] /\ isProcessing w = false /\
          delivered (history w) = seq 0 (length ms) /\
          now w = (Z.of_nat (length ms) * Z.max 0 D)%Z) as (Hq & Ht & Hp & Hd & Hnow).
  { destruct ms as [|[m rnd] ms]; [done|].
    apply Forall_cons in Hv as [V Hv]. unfold accepts in V. simpl in V.
    destruct (first_enqueue d ci m rnd V) as (Ht1 & Hq1 & Hp1 & Hh1 & Hn1 & Hl1).
    set (w1 := step (Enqueue m rnd) (ready d ci)) in *.
    destruct (enqueue_all_busy ms w1 Hp1 Hv) as (Hq2 & Ht2 & Hl2 & Hn2).
    set (w2 := run (enqueue_all ms) w1) in *.
    assert (w = run (pauses (S (length ms)) D) w2) as ->.
    { unfold w, es. by rewrite run_app. }
    assert (Attached w2) as A2.
    { unfold w2, w1. change (step (Enqueue m rnd) (ready d ci)) with
        (run [Enqueue m rnd] (ready d ci)). rewrite <- run_app.
      apply run_attached; [|apply ready_Attached].
      eapply Forall_impl; [|apply smooth_normal].
      constructor; [done|apply smooth_enqueue_all]. }
    destruct (drain_all D (length ms) w2 0 A2) as (H1 & H2 & H3 & H4 & H5).
    { congruence. }
    { rewrite Hq2, Hq1, Hh1, length_app, length_seq. simpl. lia. }
    { unfold w2, w1. by rewrite run_rateLimitDelay, (proj1 (step_frame _ _)). }
    split_and!; try done.
    - unfold history. rewrite delivered_reverse, H4, Hl2, Hl1, Hq2, Hq1, Hh1. simpl.
      by rewrite app_nil_r, reverse_involutive.
    - rewrite H5, Hn2, Hn1. simpl length. lia. }
  split_and!; try done.
  - unfold w. rewrite (fifo_drained es (ready d ci)); try done.
    + by rewrite Hacc, <- list_fmap_compose.
    + apply ready_Attached.
    + apply ready_fifo.
  - destruct (run_ordered es _ Hn (ready_Attached d ci)) as (k' & Hk' & Hq' & Ho').
    { exists 0. by split_and!. }
    fold w in Hk', Hq', Ho'.
    assert (length (heap w) = length ms) as Hlen.
    { pose proof (run_wire es (ready d ci)) as Hw. fold w in Hw. simpl in Hw.
      apply (f_equal length) in Hw. by rewrite Hacc, !length_fmap in Hw. }
    assert (k' = length ms) as ->.
    { rewrite Hq in Hq'. symmetry in Hq'. apply (f_equal length) in Hq'.
      rewrite length_seq in Hq'. simpl in Hq'. lia. }
    unfold history. by rewrite outcomes_reverse.
Qed.

Lemma every_message_is_sent_witness :
  Forall accepts [(greeting, 1%N); (farewell, 2%N)] /\
  dispatched (history (run (enqueue_all [(greeting, 1%N); (farewell, 2%N)] ++
                            pauses 2 8000) (ready None "bot"))) =
    [("5585988123456@c.us", "oi"); ("5585988654321@c.us", "tchau")] /\
  delivered (history (run (enqueue_all [(greeting, 1%N); (farewell, 2%N)] ++
                           pauses 2 8000) (ready None "bot"))) = [0; 1].
Proof.
  assert (Forall accepts [(greeting, 1%N); (farewell, 2%N)]) as Hv
    by (repeat constructor).
  split; [exact Hv|].
  destruct (every_message_is_sent None "bot" [(greeting, 1%N); (farewell, 2%N)] Hv)
    as (_ & H1 & H2 & _).
  split; [exact H1|exact H2].
Defined.

Lemma enqueue_idle m rnd w :
  isProcessing w = false -> client w && isReady (session w) = false ->
  valid m = true ->
  step (Enqueue m rnd) w = push (new_item m rnd (now w)) w.
Proof.
  intros Hp Hr V%valid_spec. simpl. unfold enqueue. rewrite V. simpl. rewrite Hp.
  by apply process_not_ready.
Qed.

Lemma enqueue_all_idle ms : forall w,
  isProcessing w = false -> client w && isReady (session w) = false ->
  Forall accepts ms ->
  let w' := run (enqueue_all ms) w in
  queue w' = queue w ++ seq (length (heap w)) (length ms) /\
  tasks w' = tasks w /\ log w' = log w /\ now w' = now w /\
  isProcessing w' = false /\ client w' = client w /\ session w' = session w /\
  rateLimitDelay w' = rateLimitDelay w.
Proof.
  induction ms as [|[m rnd] ms IH]; intros w Hp Hr Hv; simpl.
  { by rewrite app_nil_r. }
  apply Forall_cons in Hv as [V Hv]. unfold accepts in V. simpl in V.
  change (fst (enqueue m rnd w)) with (step (Enqueue m rnd) w).
  rewrite enqueue_idle by done.
  destruct (IH (push (new_item m rnd (now w)) w))
    as (Hq & Ht & Hl & Hn & Hp' & Hc' & Hs' & Hr'); [done..|].
  simpl in *. rewrite length_app in Hq. simpl in Hq.
  split_and!; try done. rewrite Hq, <- app_assoc. do 3 f_equal. lia.
Qed.

(** X13: nothing is lost while the session is not ready either.  Messages
    enqueued before the session is ready wait, none of them attempted; once
    the session is ready, a call of [process()] starts the worker and, every
    send succeeding, all of them are sent, in the order of arrival, and
    [onMessageSent] is invoked for each. *)
Theorem stalled_messages_are_sent (d : option Z) (ci : ClientInfo)
    (ms : list (Message * Rand)) :
  Forall accepts ms ->
  let D := orZ d 8000 in
  let w0 := run (enqueue_all ms) (attached d) in
  let w := run ([Session (Ready ci); Process] ++ pauses (length ms) D) w0 in
  (queue w0 = seq 0 (length ms) /\ log w0 = [] /\ tasks w0 = []) /\
  (queue w = [] /\ tasks w = [] /\ isProcessing w = false) /\
  dispatched (history w) = (fun p => addressed (request p.1)) <$> ms /\
  delivered (history w) = seq 0 (length ms).
Proof.
  intros Hv D w0 w.
  destruct (enqueue_all_idle ms (attached d) eq_refl eq_refl Hv)
    as (Hq0 & Ht0 & Hl0 & Hn0 & Hp0 & Hc0 & Hs0 & Hr0).
  fold w0 in Hq0, Ht0, Hl0, Hn0, Hp0, Hc0, Hs0, Hr0.
  simpl in Hq0, Ht0, Hl0, Hc0, Hs0, Hr0.
  set (es := enqueue_all ms ++ [Session (Ready ci); Process] ++ pauses (length ms) D).
  assert (w = run es (attached d)) as Hw by (unfold es; by rewrite run_app).
  assert (Forall smooth es) as Hsm.
  { apply Forall_app. split; [apply smooth_enqueue_all|].
    apply Forall_app. split; [by repeat constructor|apply smooth_pauses]. }
  assert (accepted es = (fun p => request p.1) <$> ms) as Hacc.
  { unfold es. rewrite !accepted_app, accepted_pauses, accepted_enqueue_all by done.
    simpl. by rewrite app_nil_r. }
  assert (queue w = [] /\ tasks w = [] /\ isProcessing w = false /\
          delivered (history w) = seq 0 (length ms)) as (Hq & Ht & Hp & Hd).
  { destruct ms as [|p ms].
    { subst w w0. by cbn. }
    set (w1 := run [Session (Ready ci); Process] w0).
    assert (w = run (pauses (S (length ms)) D) w1) as -> by (unfold w; by rewrite run_app).
    assert (Attached w0) as A0.
    { apply run_attached; [|apply attached_Attached].
      eapply Forall_impl; [apply smooth_enqueue_all|apply smooth_normal]. }
    assert (Attached w1) as A1 by (apply run_attached; [by repeat constructor|done]).
    destruct (lookup_lt_is_Some_2 (heap w0) 0) as [it Hit].
    { apply (sound_alloc _ (core_sound _ (att_core _ A0))). rewrite Hq0. left. }
    assert (tasks w1 = [AwaitSend 0] /\ queue w1 = queue w0 /\
            log w1 = [(now w0, CallSend 0 (to it +:+ "@c.us") (content it))] /\
            rateLimitDelay w1 = D) as (Ht1 & Hq1 & Hl1 & Hr1).
    { unfold w1. cbn [run foldl]. change (step Process ?x) with (process x).
      set (w0' := step (Session (Ready ci)) w0).
      rewrite (process_idle_ready w0' 0 (seq 1 (length ms)) it {| info := Some ci |});
        try done.
      - simpl. by rewrite Ht0, Hl0, Hr0.
      - unfold w0'. simpl. by rewrite Hs0.
      - unfold w0'. simpl. by rewrite Hs0. }
    destruct (drain_all D (length ms) w1 0 A1 Ht1) as (H1 & H2 & H3 & H4 & _).
    { rewrite Hq1, Hq0, length_seq. done. }
    { done. }
    split_and!; try done.
    unfold history. rewrite delivered_reverse, H4, Hl1, Hq1, Hq0. simpl.
    by rewrite app_nil_r, reverse_involutive. }
  split_and!; try done.
  rewrite Hw in Hq, Ht |- *.
  rewrite (fifo_drained es (attached d)); try done.
  - by rewrite Hacc, <- list_fmap_compose.
  - apply attached_Attached.
  - exists 0. by split_and!.
Qed.

Lemma stalled_messages_are_sent_witness :
  Forall accepts [(greeting, 1%N); (farewell, 2%N)] /\
  log (run (enqueue_all [(greeting, 1%N); (farewell, 2%N)]) (attached None)) = [] /\
  dispatched (history (run ([Session (Ready "bot"); Process] ++ pauses 2 8000)
                         (run (enqueue_all [(greeting, 1%N); (farewell, 2%N)])
                            (attached None)))) =
    [("5585988123456@c.us", "oi"); ("5585988654321@c.us", "tchau")].
Proof.
  assert (Forall accepts [(greeting, 1%N); (farewell, 2%N)]) as Hv
    by (repeat constructor).
  split; [exact Hv|].
  destruct (stalled_messages_are_sent None "bot" [(greeting, 1%N); (farewell, 2%N)] Hv)
    as ((_ & H0 & _) & _ & H1 & _).
  split; [exact H0|exact H1].
Defined.

(** ** Without a client, and [clear()] *)

Lemma dispatched_catch_block r w :
  dispatched (log (catch_block r w).1) = dispatched (log w).
Proof.
  unfold catch_block. destruct (heap w !! r); [|done]. by destruct (_ <=? _)%Z.
Qed.

Lemma queue_getClient_frame w w' :
  same_frame w w' -> queue_getClient w' = queue_getClient w.
Proof. intros (_ & _ & Hs & Hc). unfold queue_getClient. by rewrite Hs, Hc. Qed.

Lemma loop_no_client q w err :
  queue_getClient w = Throw err ->
  dispatched (log (loop q w).1) = dispatched (log w).
Proof.
  revert w. induction q as [|r q IH]; intros w Hg; cbn [loop]; [done|].
  destruct (heap w !! r); [|done]. rewrite Hg.
  pose proof (dispatched_catch_block r w) as Hd.
  pose proof (catch_block_quiet r w) as [_ Hf].
  destruct (catch_block r w) as [w1 [c|]]; simpl in *; [done|].
  rewrite IH; [done|]. by rewrite (queue_getClient_frame w w1).
Qed.

Lemma no_client_throws w :
  client w && not_null (wa_client (session w)) = false ->
  exists err, queue_getClient w = Throw err.
Proof.
  unfold queue_getClient, getClient. destruct (client w); [|by eexists].
  destruct (wa_client (session w)); [done|by eexists].
Qed.

Lemma process_no_client w :
  client w && not_null (wa_client (session w)) = false ->
  dispatched (log (process w)) = dispatched (log w).
Proof.
  intros H. unfold process. destruct (_ || _); [done|].
  destruct (no_client_throws w H) as [err Hg].
  pose proof (loop_no_client (queue w) (set_isProcessing true w) err Hg) as Hl.
  destruct (loop _ _) as [w1 c]. by rewrite spawn_log.
Qed.

(** X14: [sendMessage] is never called without a client object.  While the
    queue has no session wrapper ([setClient] not called, or called with
    null), or the wrapper has no client object (before [initialize()], after
    [logout()]), no event makes the worker call [sendMessage], not even one
    that resumes a worker started earlier. *)
Theorem no_call_without_client_object (e : Event) (w : World) :
  client w && not_null (wa_client (session w)) = false ->
  dispatched (log (step e w)) = dispatched (log w).
Proof.
  intros H. destruct (no_client_throws w H) as [err Hg].
  destruct e as [m rnd| | |b|k ok|k|dt|e]; simpl; try done.
  - unfold enqueue. destruct (_ || _); [done|]. simpl.
    destruct (isProcessing w); [done|].
    by rewrite (process_no_client (push (new_item m rnd (now w)) w)).
  - by apply process_no_client.
  - destruct (tasks w !! k) as [[r|d]|]; try done.
    unfold resume_send. destruct ok; [done|].
    set (w0 := set_tasks _ w).
    pose proof (dispatched_catch_block r w0) as Hd.
    pose proof (catch_block_quiet r w0) as [_ Hf].
    destruct (catch_block r w0) as [w1 [c|]]; simpl in *; [done|].
    pose proof (loop_no_client (queue w1) w1 err) as Hl.
    destruct (loop _ _) as [w2 c]. rewrite spawn_log. simpl in Hl.
    rewrite Hl; [done|]. by rewrite (queue_getClient_frame w0 w1).
  - destruct (tasks w !! k) as [[r|d]|]; try done.
    destruct (_ <=? _)%Z; [|done]. unfold resume_delay.
    pose proof (loop_no_client (queue w) (set_tasks (delete k (tasks w)) w) err Hg) as Hl.
    destruct (loop _ _) as [w2 c]. by rewrite spawn_log.
  - by destruct (_ <=? _)%Z.
Qed.

Lemma no_call_without_client_object_witness :
  client logged_out_mid_drain &&
    not_null (wa_client (session logged_out_mid_drain)) = false /\
  tasks logged_out_mid_drain = [AwaitDelay 8000] /\
  dispatched (log (step (Fire 0) logged_out_mid_drain)) =
    [("5585988123456@c.us", "oi")] /\
  (attempts <$> heap (step (Fire 0) logged_out_mid_drain) !! 0) = Some 2%Z.
Proof.
  split; [reflexivity|]. split; [reflexivity|].
  split; [|reflexivity].
  rewrite (no_call_without_client_object (Fire 0) logged_out_mid_drain eq_refl).
  reflexivity.
Defined.

(** X15: [clear()] empties the queue and nothing more: it does not stop the
    worker, and a send in flight still completes and is reported.  When that
    send succeeds the worker shifts the queue as it is by then: a message
    enqueued after [clear()] and before the completion is accepted, with an
    id, and then removed without [sendMessage] or any callback ever being
    called for it. *)
Theorem clear_keeps_worker_running (d : option Z) (es : list Event)
    (r : nat) (m : Message) (rnd : Rand) :
  let w := run es (new_World d) in
  tasks w = [AwaitSend r] -> valid m = true ->
  let w1 := run [Clear; Enqueue m rnd] w in
  let w2 := run [Settle 0 true; Tick (Z.max 0 (rateLimitDelay w)); Fire 0] w1 in
  (queue (step Clear w) = [] /\ tasks (step Clear w) = [AwaitSend r] /\
   isProcessing (step Clear w) = true /\ log (step Clear w) = log w) /\
  ((enqueue m rnd (step Clear w)).2 = Ok {| id_time := now w; id_random := rnd |} /\
   queue w1 = [length (heap w)] /\ log w1 = log w) /\
  (log w2 = (now w, Delay (rateLimitDelay w)) :: (now w, Sent r) :: log w /\
   queue w2 = [] /\ tasks w2 = [] /\ isProcessing w2 = false).
Proof.
  intros w Ht V w1 w2.
  pose proof (run_inv es _ (new_World_inv d)) as I. fold w in I.
  assert (isProcessing w = true) as Hp.
  { destruct (inv_tasks _ I) as [[Ht' _]|(c & _ & ?)]; [congruence|done]. }
  apply valid_spec in V.
  assert (w1 = push (new_item m rnd (now w)) (set_queue [] w)) as H1.
  { subst w1. cbn [run foldl]. unfold step at 1. unfold enqueue. rewrite V. simpl.
    by rewrite Hp. }
  assert (log w2 = (now w, Delay (rateLimitDelay w)) :: (now w, Sent r) :: log w /\
          queue w2 = [] /\ tasks w2 = [] /\ isProcessing w2 = false) as H2.
  { subst w2. rewrite H1. cbn [run foldl].
    rewrite (settle_ok _ r) by done. rewrite tick_max. simpl.
    destruct (Z.leb_spec (now w + rateLimitDelay w) (now w + Z.max 0 (rateLimitDelay w)));
      [done|lia]. }
  split_and!; try done; try apply H2.
  - unfold enqueue. by rewrite V.
  - by rewrite H1.
  - by rewrite H1.
Qed.

Lemma clear_keeps_worker_running_witness :
  tasks first_send_pending = [AwaitSend 0] /\ valid farewell = true /\
  history (run [Settle 0 true; Tick 8000; Fire 0]
             (run [Clear; Enqueue farewell 2%N] first_send_pending)) =
    [(0%Z, CallSend 0 "5585988123456@c.us" "oi"); (0%Z, Sent 0); (0%Z, Delay 8000)] /\
  queue (run [Settle 0 true; Tick 8000; Fire 0]
           (run [Clear; Enqueue farewell 2%N] first_send_pending)) = [].
Proof.
  split; [reflexivity|]. split; [reflexivity|].
  destruct (clear_keeps_worker_running None
              [SetClient true; Session Initialize; Session (Ready "bot");
               Enqueue greeting 1%N] 0 farewell 2%N eq_refl eq_refl)
    as (_ & _ & Hl & Hq & _).
  split; [|exact Hq].
  unfold history. etransitivity; [exact (f_equal reverse Hl)|reflexivity].
Defined.

(** * Further properties of the session, the relay and the control server *)

(** ** The session wrapper *)

(** X16: a completed [logout()] puts the wrapper back into the state the
    constructor left it in, whatever happened before: no client object, not
    ready, [getClient()] failing; a following [initialize()] starts over with
    a fresh client object that is not ready.  And [initialize()] itself never
    changes [isReady], and called a second time changes nothing. *)
Theorem logout_resets_session (es : list SessionEvent) :
  run_session (es ++ [Logout]) = new_WhatsAppClient /\
  getClient (run_session (es ++ [Logout])) = Throw not_initialized /\
  run_session (es ++ [Logout; Initialize]) = run_session [Initialize] /\
  run_session (es ++ [Initialize; Initialize]) = run_session (es ++ [Initialize]) /\
  isReady (run_session (es ++ [Initialize])) = isReady (run_session es).
Proof.
  assert (run_session (es ++ [Logout]) = new_WhatsAppClient) as H.
  { rewrite run_session_snoc. pose proof (run_session_ready_handle es) as Hok.
    unfold session_ok in Hok. unfold session_step.
    destruct (run_session es) as [[h|] [|]]; simpl in *; try done.
    by destruct Hok. }
  split_and!.
  - done.
  - by rewrite H.
  - change [Logout; Initialize] with ([Logout] ++ [Initialize]).
    by rewrite app_assoc, run_session_snoc, H.
  - change [Initialize; Initialize] with ([Initialize] ++ [Initialize]).
    rewrite app_assoc, !run_session_snoc. unfold session_step.
    by destruct (wa_client (run_session es)) eqn:E; simpl; rewrite ?E.
  - rewrite run_session_snoc. unfold session_step.
    by destruct (wa_client (run_session es)).
Qed.

(** X17: in the configuration the constructor of [WhatsAppClient] keeps,
    every property of the caller's [config] stands with the caller's value,
    [sessionName] and [headless] included, even when that value is empty or
    undefined; the defaults ["default"] and [true] are used only when the
    caller's object has no such property at all.  These two settings are what
    [initialize()] passes on as the client id and the headless flag. *)
Theorem constructor_defaults (config : gmap string Config.Value) :
  (forall k v, config !! k = Some v -> Config.client_config config !! k = Some v) /\
  (forall k, k <> "headless" -> k <> "sessionName" ->
     Config.client_config config !! k = config !! k) /\
  (config !! "sessionName" = None ->
     Config.clientId (Config.client_options (Config.client_config config)) =
       Config.Str "default") /\
  (forall v, config !! "sessionName" = Some v ->
     Config.clientId (Config.client_options (Config.client_config config)) = v) /\
  (config !! "headless" = None ->
     Config.headless (Config.client_options (Config.client_config config)) =
       Config.Bool true) /\
  (forall v, config !! "headless" = Some v ->
     Config.headless (Config.client_options (Config.client_config config)) = v).
Proof.
  unfold Config.client_config, Config.client_options, Config.get.
  cbn [Config.clientId Config.headless]. split_and!.
  - intros k v H. by apply lookup_union_Some_l.
  - intros k H1 H2. destruct (config !! k) as [v|] eqn:E.
    + by apply lookup_union_Some_l.
    + apply lookup_union_None_2; [done|].
      rewrite lookup_insert_ne by congruence. by rewrite lookup_insert_ne by congruence.
  - intros H. rewrite lookup_union_r by done.
    rewrite lookup_insert_ne by done. rewrite lookup_insert_eq. by rewrite H.
  - intros v H. by rewrite (lookup_union_Some_l _ _ _ _ H).
  - intros H. rewrite lookup_union_r by done. by rewrite lookup_insert_eq.
  - intros v H. by rewrite (lookup_union_Some_l _ _ _ _ H).
Qed.

(** X18: the service as [main] starts it always runs the session under a
    non-empty client id: the value of [WHATSAPP_SESSION] when that variable
    is set and not empty, and ["default"] otherwise; and always headless. *)
Theorem main_session_name (e : gmap string string) :
  let opts := Config.client_options (Config.client_config (Config.main_config e)) in
  Config.clientId opts = Config.WHATSAPP_SESSION e /\
  Config.headless opts = Config.Bool true /\
  (exists s, Config.clientId opts = Config.Str s /\ s <> "") /\
  (forall s, e !! "WHATSAPP_SESSION" = Some s -> s <> "" ->
     Config.clientId opts = Config.Str s) /\
  (e !! "WHATSAPP_SESSION" = None \/ e !! "WHATSAPP_SESSION" = Some "" ->
     Config.clientId opts = Config.Str "default").
Proof.
  intros opts.
  assert (Config.clientId opts = Config.WHATSAPP_SESSION e) as H1.
  { unfold opts, Config.client_options, Config.client_config, Config.get,
      Config.main_config. cbn [Config.clientId].
    rewrite (lookup_union_Some_l _ _ _ (Config.WHATSAPP_SESSION e)); [done|].
    apply lookup_singleton_eq. }
  assert (Config.headless opts = Config.Bool true) as H2.
  { unfold opts, Config.client_options, Config.client_config, Config.get,
      Config.main_config. cbn [Config.headless].
    rewrite lookup_union_r by (by apply lookup_singleton_ne).
    by rewrite lookup_insert_eq. }
  rewrite H1. unfold Config.WHATSAPP_SESSION, Config.or_else, Config.env.
  split_and!; [done|done| | |].
  - destruct (e !! "WHATSAPP_SESSION") as [s|]; simpl; [|by eexists].
    destruct (String.eqb_spec s ""); simpl; [by eexists|by exists s].
  - intros s -> Hs. simpl. by destruct (String.eqb_spec s "").
  - by intros [-> | ->].
Qed.

(** ** The inbound relay, with and without an orchestrator *)

Lemma truthy_Some v :
  truthy v = true -> exists s, v = Some s /\ s <> "" /\ default "" v = s.
Proof. destruct v as [[|a s]|]; try done. intros _. by eexists. Qed.

(** X19: the [message] listener never lets an error escape, whatever the
    platform and the orchestrator do: it always completes; it makes at most
    one HTTP request and logs at most one error.  A message of type
    [e2e_notification] or [call_log] has no effect at all; for any other
    message, when the contact or the chat cannot be fetched the one thing
    done is to log the error. *)
Theorem listener_contains_errors (E : MessageHandlers.Env) (h : MessageHandlers.t)
    (msg : MessageHandlers.Msg) :
  let out := MessageHandlers.on_message E h msg in
  out.2 = Ok tt /\
  length (MessageHandlers.posts out.1) <= 1 /\
  length (MessageHandlers.errors out.1) <= 1 /\
  (ignored msg = true -> out.1 = []) /\
  (ignored msg = false ->
   (exists e, MessageHandlers.getContact E msg = Throw e) \/
   (exists e, MessageHandlers.getChat E msg = Throw e) ->
   out.1 = [MessageHandlers.Console MessageHandlers.Error
              "Falha ao processar e encaminhar mensagem"]).
Proof.
  intros out. subst out. unfold MessageHandlers.on_message, ignored.
  destruct (_ || _); [split_and!; try done; simpl; lia|].
  unfold MessageHandlers.forwardToOrchestrator.
  destruct (MessageHandlers.getContact E msg) as [c|e1],
           (MessageHandlers.getChat E msg) as [ch|e2]; simpl.
  - destruct (truthy (MessageHandlers.orchestratorUrl h)); simpl.
    + destruct (MessageHandlers.axios_post E _ _) as [[]|e]; simpl;
        (split_and!; [done|lia|lia|done|]); by intros _ [[? ?]|[? ?]].
    + split_and!; [done|lia|lia|done|]. by intros _ [[? ?]|[? ?]].
  - split_and!; [done|lia|lia|done|done].
  - split_and!; [done|lia|lia|done|done].
  - split_and!; [done|lia|lia|done|done].
Qed.

(** X20: with an orchestrator URL configured the constructor logs no
    warning, and every message that is not of an ignored type and whose
    contact and chat resolve is posted to that URL exactly once, as the
    payload built from message, contact and chat, with a timeout of 10000 ms;
    no error is logged when the request succeeds, and when it fails the
    failure is logged once and the request is not repeated. *)
Theorem relay_posts_once (E : MessageHandlers.Env) (h : MessageHandlers.t)
    (msg : MessageHandlers.Msg) (c : MessageHandlers.Contact) (ch : MessageHandlers.Chat) :
  truthy (MessageHandlers.orchestratorUrl h) = true ->
  ignored msg = false ->
  MessageHandlers.getContact E msg = Ok c -> MessageHandlers.getChat E msg = Ok ch ->
  let url := default "" (MessageHandlers.orchestratorUrl h) in
  let p := MessageHandlers.make_payload msg c ch in
  let out := MessageHandlers.on_message E h msg in
  MessageHandlers.posts out.1 = [MessageHandlers.Post url p 10000] /\
  (MessageHandlers.axios_post E url p = Ok tt -> MessageHandlers.errors out.1 = []) /\
  (forall e, MessageHandlers.axios_post E url p = Throw e ->
     MessageHandlers.errors out.1 =
       [MessageHandlers.Console MessageHandlers.Error "Webhook"]) /\
  (MessageHandlers.constructor (MessageHandlers.orchestratorUrl h)).2 = [].
Proof.
  intros Hu Hi Hc Hch url p out. subst out.
  unfold MessageHandlers.on_message, ignored in *. rewrite Hi, Hc, Hch.
  unfold MessageHandlers.forwardToOrchestrator, MessageHandlers.constructor.
  rewrite Hu. simpl. fold url p.
  destruct (MessageHandlers.axios_post E url p) as [[]|e]; simpl; by split_and!.
Qed.

Lemma relay_posts_once_witness :
  truthy (MessageHandlers.orchestratorUrl forwarding) = true /\
  ignored inbound = false /\
  exists c ch,
    MessageHandlers.posts (MessageHandlers.on_message calm forwarding inbound).1 =
      [MessageHandlers.Post "http://orchestrator:3000/process-message"
         (MessageHandlers.make_payload inbound c ch) 10000].
Proof.
  split; [reflexivity|]. split; [reflexivity|].
  destruct (MessageHandlers.getContact calm inbound) as [c|] eqn:Hc; [|discriminate Hc].
  destruct (MessageHandlers.getChat calm inbound) as [ch|] eqn:Hch; [|discriminate Hch].
  exists c, ch.
  destruct (relay_posts_once calm forwarding inbound c ch eq_refl eq_refl Hc Hch)
    as (H & _).
  exact H.
Defined.

(** ** What the control server asks of the platform *)

(** X21: whatever the request and whatever the platform answers,
    [POST /send-message] makes at most two calls: a fetch, which can only
    come first and is of the non-empty [mediaUrl] of the request, and a send,
    which can only come last and goes to the non-empty [chatId] of the
    request; what is sent is the non-empty message text with no caption, or
    an attachment with that text as caption. *)
Theorem send_message_calls (P : WebhookServer.Platform) (req : WebhookServer.Body) :
  let calls := (WebhookServer.post_send_message P req).2 in
  length calls <= 2 /\
  (forall i url unsafe, calls !! i = Some (WebhookServer.Fetch url unsafe) ->
     i = 0 /\ WebhookServer.mediaUrl req = Some url /\ url <> "") /\
  (forall i chat content cap,
     calls !! i = Some (WebhookServer.Send chat content cap) ->
     S i = length calls /\
     WebhookServer.chatId req = Some chat /\ chat <> "" /\
     exists text, WebhookServer.message req = Some text /\ text <> "" /\
       match content with
       | WebhookServer.Text t => t = text /\ cap = None
       | WebhookServer.Attachment _ => cap = Some text
       end).
Proof.
  intros calls. subst calls. unfold WebhookServer.post_send_message.
  destruct (truthy (WebhookServer.chatId req)) eqn:Hc; simpl;
    [|split_and!; [lia|by intros []..]].
  destruct (truthy (WebhookServer.message req)) eqn:Hm; simpl;
    [|split_and!; [lia|by intros []..]].
  destruct (truthy_Some _ Hc) as (chat & Hc1 & Hc2 & ->).
  destruct (truthy_Some _ Hm) as (text & Hm1 & Hm2 & ->).
  unfold WebhookServer.fetch_media.
  destruct (truthy (WebhookServer.mediaUrl req)) eqn:Hu.
  - destruct (truthy_Some _ Hu) as (url & Hu1 & Hu2 & ->).
    destruct (WebhookServer.fromUrl P url _) as [m|e].
    + destruct (WebhookServer.sendMessage P chat _ _); simpl;
        (split_and!; [lia| |]).
      all: try (intros [|[|i]] ??; simpl; by intros [= <- <-]).
      all: intros [|[|i]] ???; simpl; try done; intros [= <- <- <-];
        split_and!; try done; by exists text.
    + simpl. split_and!; [lia| |by intros [|i]].
      intros [|i] ??; simpl; [|done]. by intros [= <- <-].
  - destruct (WebhookServer.sendMessage P chat _ _); simpl;
      (split_and!; [lia|by intros [|i]|]).
    all: intros [|i] ???; simpl; try done; intros [= <- <- <-];
      split_and!; try done; by exists text.
Qed.
